(** * PeachPy output writers: a shallow embedding of [peachpy/writer.py]

    The module under study is the output back end of the PeachPy assembler:
    a textual assembly writer, three object-file writers (ELF, Mach-O,
    MS-COFF), a null writer, and the module-level [active_writer] slot that
    the [with] statement protocol of every writer saves and restores.

    Python values are embedded as follows.
    - [int] is [Z]; [len] is [Z.of_nat (length _)].
    - [bytearray] / [str] used as bytes is [list byte]; text is [string].
    - [dict] is stdpp's [gmap]; the file system is a [gmap] from paths.
    - Exceptions are the constructors of [exn]; a method is a function in a
      state-and-exception monad whose state is the object it mutates, and a
      raised exception keeps the mutations made before it.
    - A reference to a writer object (what [active_writer] and
      [previous_writer] hold) is the identity [ref] of that object. *)

From Stdlib Require Import ZArith Lia List.
From Stdlib Require Import Strings.Byte.
From stdpp Require Import gmap strings list.

Open Scope Z_scope.

(** ** Exceptions and the method monad *)

Inductive exn : Type :=
| AssertionError (msg : string)
| ValueError (msg : string)
| KeyError (key : string)
| AttributeError (msg : string)
| OSError (path : string)
| Exception (what : string).

#[global] Instance exn_eq_dec : EqDecision exn.
Proof. solve_decision. Defined.

Inductive result (A : Type) : Type :=
| Ok (a : A)
| Raise (e : exn).
Arguments Ok {A} a.
Arguments Raise {A} e.

(** A method with receiver state [S]: it returns or raises, and in both
    cases hands back the (possibly mutated) receiver. *)
Definition M (S A : Type) : Type := S -> result A * S.

Definition ret {S A} (a : A) : M S A := fun s => (Ok a, s).
Definition raise {S A} (e : exn) : M S A := fun s => (Raise e, s).
Definition bind {S A B} (m : M S A) (k : A -> M S B) : M S B :=
  fun s => match m s with
           | (Ok a, s') => k a s'
           | (Raise e, s') => (Raise e, s')
           end.
Definition gets {S A} (f : S -> A) : M S A := fun s => (Ok (f s), s).
Definition modify {S} (f : S -> S) : M S unit := fun s => (Ok tt, f s).

Declare Scope py_scope.
Delimit Scope py_scope with py.
Notation "x <- m ;; k" := (bind m (fun x => k))
  (at level 100, m at next level, right associativity) : py_scope.
Notation "m ;;; k" := (bind m (fun _ => k))
  (at level 100, right associativity) : py_scope.
Open Scope py_scope.

(** [len(x)] on a byte string or list. *)
Definition len {A} (l : list A) : Z := Z.of_nat (length l).

(** The entry of a table (a string table, a symbol table) at an index
    returned by its [add]. *)
Definition entry {A} (table : list A) (i : Z) : option A :=
  if Z.ltb i 0 then None else table !! Z.to_nat i.

(** Truthiness of a Python sequence: empty is false. *)
Definition truthy {A} (l : list A) : bool :=
  match l with [] => false | _ :: _ => true end.

(** ** Collaborators of the writers *)

(** An identity of a writer object: the value of a Python reference. *)
Definition ref : Type := nat.

Inductive Endianness : Type := Little | Big.

(** The target ABI, as far as the writers read it. *)
Record ABI : Type := mkABI {
  endianness : Endianness;
  elf_bitness : Z
}.

(** A named constant produced by the encoder ([symbol.name], [.offset],
    [.size] in the source). *)
Module Constant.
Record t : Type := mk { name : string; offset : Z; size : Z }.
End Constant.

(** A code relocation produced by the encoder ([relocation.offset],
    [relocation.symbol]). *)
Module Relocation.
Record t : Type := mk { offset : Z; symbol : string }.
End Relocation.

(** The result of [function.encode()]: the attributes the writers read. *)
Record EncodedFunction : Type := mkEncoded {
  code_content : list byte;
  const_content : list byte;
  const_symbols : list Constant.t;
  code_relocations : list Relocation.t;
  as_bytearray : list byte
}.

(** [peachpy.x86_64.function.ABIFunction]: a function bound to an ABI. *)
Record ABIFunction : Type := mkABIFunction {
  name : string;
  encode : EncodedFunction;
  format : string -> string
}.

(** What a caller may pass to [add_function]: an instance of
    [ABIFunction], or some other object (a function not yet bound). *)
Inductive Function : Type :=
| Bound (f : ABIFunction)
| Unbound (function_name : string).

Definition assert_message : string :=
  "Function must be bindinded to an ABI before its assembly can be used".

(** [assert isinstance(function, ABIFunction), "..."] *)
Definition assert_isinstance {S} (function : Function) : M S ABIFunction :=
  match function with
  | Bound f => ret f
  | Unbound _ => raise (AssertionError assert_message)
  end.

(** ** Byte encoder *)

Definition byte_of_Z (z : Z) : byte :=
  match Byte.of_N (Z.to_N (Z.land z 255)) with
  | Some b => b
  | None => x00
  end.

Definition Z_of_byte (b : byte) : Z := Z.of_N (Byte.to_N b).

(** Modelled from the spec: [peachpy.encoder.Encoder] is not part of the
    sources at hand.  The writer builds it from the ABI's byte order and
    bit width and calls its [uint64] method, which yields the fixed-width
    (eight-byte) encoding of an unsigned 64-bit integer in that byte
    order. *)
Module Encoder.
Record t : Type := mk { endianness : Endianness; bitness : Z }.

Definition uint64le (n : Z) : list byte :=
    map (fun k => byte_of_Z (Z.shiftr n (8 * k))) [0; 1; 2; 3; 4; 5; 6; 7].

Definition uint64be (n : Z) : list byte := rev (uint64le n).

Definition uint64 (self : t) (n : Z) : list byte :=
    match endianness self with
    | Little => uint64le n
    | Big => uint64be n
    end.
End Encoder.

(** Reading back a little-endian byte string as an unsigned integer, and
    eight bytes in a given byte order as a signed 64-bit integer. *)
Fixpoint le_value (bs : list byte) : Z :=
  match bs with
  | [] => 0
  | b :: rest => Z_of_byte b + 256 * le_value rest
  end.

Definition decode_uint64 (e : Endianness) (bs : list byte) : Z :=
  match e with
  | Little => le_value bs
  | Big => le_value (rev bs)
  end.

Definition decode_int64 (e : Endianness) (bs : list byte) : Z :=
  let u := decode_uint64 e bs in
  if Z.ltb u (2 ^ 63) then u else u - 2 ^ 64.

(** ** The module state and the file system *)

(** A file object returned by [open]: the writers read its [name]. *)
Record File : Type := mkFile { file_name : string }.

(** What the module and the operating system hold between calls: the
    module-level variable [active_writer] and the files on disk, a finite
    map from paths to contents.  The environment never fails on its own:
    opening for writing creates or truncates the file, and every [write]
    in the source is unbuffered or followed by [flush], so writes go
    through to the map. *)
Record Globals : Type := mkGlobals {
  active_writer : option ref;
  fs : gmap string (list byte)
}.

Definition set_active_writer (v : option ref) (g : Globals) : Globals :=
  {| active_writer := v; fs := fs g |}.

Definition set_fs (v : gmap string (list byte)) (g : Globals) : Globals :=
  {| active_writer := active_writer g; fs := v |}.

(** [open(path, "w")] *)
Definition open_w (path : string) : M Globals File :=
  fun g => (Ok (mkFile path), set_fs (<[path := []]> (fs g)) g).

(** [file.write(data)] (and [file.flush()]) *)
Definition file_write (file : File) (data : list byte) : M Globals unit :=
  modify (fun g => set_fs (alter (fun c => c ++ data) (file_name file) (fs g)) g).

(** [file.close()] *)
Definition file_close (file : File) : M Globals unit := ret tt.

(** [os.unlink(path)]: removing a file that is not there is an error. *)
Definition os_unlink (path : string) : M Globals unit :=
  fun g => match fs g !! path with
           | Some _ => (Ok tt, set_fs (delete path (fs g)) g)
           | None => (Raise (OSError path), g)
           end.

(** A method of a writer runs on the module state and the writer. *)
Definition on_globals {W A} (m : M Globals A) : M (Globals * W) A :=
  fun s => let '(r, g) := m (fst s) in (r, (g, snd s)).

Definition on_self {W A} (m : M W A) : M (Globals * W) A :=
  fun s => let '(r, w) := m (snd s) in (r, (fst s, w)).

(** [obj.attr] where [obj] may be [None]. *)
Definition attr_of {S A} (obj : option A) (what : string) : M S A :=
  match obj with
  | Some a => ret a
  | None => raise (AttributeError what)
  end.

(** The [with] statement: [with manager: body].  [__exit__] receives the
    exception raised by the body, if any; the writers' [__exit__] never
    returns a true value, so an exception of the body propagates unless
    [__exit__] itself raises. *)
Definition with_statement {S} (enter : M S unit)
    (exit : option exn -> M S unit) (body : M S unit) : M S unit :=
  fun s =>
    match enter s with
    | (Raise e, s1) => (Raise e, s1)
    | (Ok _, s1) =>
        match body s1 with
        | (Ok _, s2) => exit None s2
        | (Raise e, s2) =>
            match exit (Some e) s2 with
            | (Ok _, s3) => (Raise e, s3)
            | (Raise e', s3) => (Raise e', s3)
            end
        end
    end.

(** A bare [raise] inside [__exit__]: re-raises the exception in flight. *)
Definition reraise {S} (exc : option exn) : M S unit :=
  match exc with
  | Some e => raise e
  | None => raise (Exception "No active exception to reraise")
  end.

(** ** ELF images ([peachpy.formats.elf]) *)

(** Modelled from the spec: the ELF [Image] container and its section,
    symbol and string-table classes are not part of the sources at hand.
    An image owns an ordered collection of bound sections, a string table
    and a symbol table.  Binding a section records its name and assigns it
    the next index; [strtab.add] and [symtab.add] append an entry and
    return its index, and the string table does not deduplicate.  A
    section is an append-only byte buffer.  The section objects themselves
    are shared between the image and the writer: the model keeps the one
    copy in the writer's fields and the image keeps the bound names.  The
    spec does not say which index an image gives its own symbol-table
    section; the writer only copies it into a header, and nothing below
    depends on it.  The header's [content_size] is [hdr_content_size]
    here, the symbol's keeps its name. *)
Module elf.
Inductive SectionType : Type :=
| ProgramBits | SymbolTable | StringTable | AddendRelocations.

Inductive SymbolBinding : Type := Local | Global | Weak.

Inductive SymbolType : Type :=
| Unspecified | DataObject | Function | File.

Record Symbol : Type := mkSymbol {
  name_index : Z;
  value : Z;
  content_size : Z;
  section_index : Z;
  binding : SymbolBinding;
  type : SymbolType
}.

(** [TextSection] and [ProgramBitsSection]: code or data bytes. *)
Record ProgramBitsSection : Type := mkBits {
  index : Z;
  content : list byte
}.

Definition append (data : list byte) (s : ProgramBitsSection)
  : ProgramBitsSection :=
  {| index := index s; content := content s ++ data |}.

(** The header fields of a generic [Section] that the writer sets. *)
Record SectionHeader : Type := mkHeader {
  content_type : SectionType;
  hdr_content_size : Z;
  link_index : Z;
  info : Z;
  entry_size : Z
}.

(** A generic [Section]: the writer appends to [_content] directly. *)
Record Section : Type := mkSection {
  sec_index : Z;
  _content : list byte;
  header : SectionHeader
}.

Record Image : Type := mkImage {
  img_abi : ABI;
  source : option string;
  sections : list string;
  strtab : list string;
  symtab : list Symbol;
  symtab_index : Z
}.

(** A fresh image: nothing bound, empty tables. *)
Definition Image_new (abi : ABI) (input_path : option string) : Image :=
  {| img_abi := abi; source := input_path; sections := [];
     strtab := []; symtab := []; symtab_index := 0 |}.

(** [image.bind_section(section, name)]: the image after the call and
    the index given to the section. *)
Definition bind_section (name : string) (img : Image) : Image * Z :=
  ({| img_abi := img_abi img; source := source img;
      sections := sections img ++ [name];
      strtab := strtab img; symtab := symtab img;
      symtab_index := symtab_index img |},
   len (sections img)).

(** [image.strtab.add(name)] *)
Definition strtab_add (name : string) (img : Image) : Image * Z :=
  ({| img_abi := img_abi img; source := source img;
      sections := sections img;
      strtab := strtab img ++ [name]; symtab := symtab img;
      symtab_index := symtab_index img |},
   len (strtab img)).

(** [image.symtab.add(symbol)] *)
Definition symtab_add (symbol : Symbol) (img : Image) : Image * Z :=
  ({| img_abi := img_abi img; source := source img;
      sections := sections img;
      strtab := strtab img; symtab := symtab img ++ [symbol];
      symtab_index := symtab_index img |},
   len (symtab img)).

End elf.

(** ** The ELF writer *)

Module ELFWriter.

Record t : Type := mk {
  self : ref;
  output_path : string;
  previous_writer : option ref;
  abi : ABI;
  image : elf.Image;
  text_section : elf.ProgramBitsSection;
  text_rela_section : option elf.Section;
  rodata_section : option elf.ProgramBitsSection;
  output_file : option File
}.

Definition set_image (v : elf.Image) (w : t) : t :=
  mk (self w) (output_path w) (previous_writer w) (abi w) v
     (text_section w) (text_rela_section w) (rodata_section w)
     (output_file w).

Definition set_text_section (v : elf.ProgramBitsSection) (w : t) : t :=
  mk (self w) (output_path w) (previous_writer w) (abi w) (image w)
     v (text_rela_section w) (rodata_section w) (output_file w).

Definition set_text_rela_section (v : option elf.Section) (w : t) : t :=
  mk (self w) (output_path w) (previous_writer w) (abi w) (image w)
     (text_section w) v (rodata_section w) (output_file w).

Definition set_rodata_section (v : option elf.ProgramBitsSection) (w : t) : t :=
  mk (self w) (output_path w) (previous_writer w) (abi w) (image w)
     (text_section w) (text_rela_section w) v (output_file w).

Definition set_previous_writer (v : option ref) (w : t) : t :=
  mk (self w) (output_path w) v (abi w) (image w)
     (text_section w) (text_rela_section w) (rodata_section w)
     (output_file w).

Definition set_output_file (v : option File) (w : t) : t :=
  mk (self w) (output_path w) (previous_writer w) (abi w) (image w)
     (text_section w) (text_rela_section w) (rodata_section w) v.

(** [ELFWriter.__init__]; [id] is the identity of the new object. *)
Definition __init__ (id : ref) (output_path : string) (abi : ABI)
    (input_path : option string) : t :=
  let image := elf.Image_new abi input_path in
  let '(image, text_index) := elf.bind_section ".text" image in
  {| self := id;
     output_path := output_path;
     previous_writer := None;
     abi := abi;
     image := image;
     text_section := elf.mkBits text_index [];
     text_rela_section := None;
     rodata_section := None;
     output_file := None |}.

(** Calls on the image held by the writer. *)
Definition on_image {A} (f : elf.Image -> elf.Image * A) : M t A :=
  fun w => let '(img, a) := f (image w) in (Ok a, set_image img w).

(** Lines 114-120: the constant data of the function. *)
Definition add_const_content (const_content : list byte) : M t Z :=
  if truthy const_content then
    (rodata <- gets rodata_section ;;
     match rodata with
     | None =>
         rodata_index <- on_image (elf.bind_section ".rodata") ;;
         modify (set_rodata_section (Some (elf.mkBits rodata_index [])))
     | Some _ => ret tt
     end ;;;
     rodata <- gets rodata_section ;;
     section <- attr_of rodata "content" ;;
     let function_rodata_offset := len (elf.content section) in
     modify (set_rodata_section (Some (elf.append const_content section))) ;;;
     ret function_rodata_offset)
  else ret 0.

(** Lines 124-134: one symbol per named constant, and the map from names
    to the indices they were given. *)
Fixpoint add_const_symbols (function_rodata_offset : Z)
    (symbols : list Constant.t) (symbol_map : gmap string Z)
    : M t (gmap string Z) :=
  match symbols with
  | [] => ret symbol_map
  | symbol :: rest =>
      name_index <- on_image (elf.strtab_add (Constant.name symbol)) ;;
      rodata <- gets rodata_section ;;
      section <- attr_of rodata "index" ;;
      let const_symbol :=
        {| elf.name_index := name_index;
           elf.value := function_rodata_offset + Constant.offset symbol;
           elf.content_size := Constant.size symbol;
           elf.section_index := elf.index section;
           elf.binding := elf.Local;
           elf.type := elf.DataObject |} in
      const_symbol_index <- on_image (elf.symtab_add const_symbol) ;;
      add_const_symbols function_rodata_offset rest
        (<[Constant.name symbol := const_symbol_index]> symbol_map)
  end.

Definition R_X86_64_PC32 : Z := 2.

(** The bytes of one relocation entry (line 155). *)
Definition relocation_entry (encoder : Encoder.t) (offset info addend : Z)
    : list byte :=
  Encoder.uint64 encoder offset ++ Encoder.uint64 encoder info
    ++ Encoder.uint64 encoder (Z.land addend 0xFFFFFFFFFFFFFFFF).

(** [section._content += relocation] and
    [section.header.content_size += len(relocation)]. *)
Definition rela_append (relocation : list byte) (s : elf.Section)
    : elf.Section :=
  let h := elf.header s in
  {| elf.sec_index := elf.sec_index s;
     elf._content := elf._content s ++ relocation;
     elf.header :=
       {| elf.content_type := elf.content_type h;
          elf.hdr_content_size := elf.hdr_content_size h + len relocation;
          elf.link_index := elf.link_index h;
          elf.info := elf.info h;
          elf.entry_size := elf.entry_size h |} |}.

(** Lines 149-157: the loop over the code relocations. *)
Fixpoint add_relocations (encoder : Encoder.t)
    (symbol_map : gmap string Z) (relocations : list Relocation.t)
    : M t unit :=
  match relocations with
  | [] => ret tt
  | relocation :: rest =>
      let offset := Relocation.offset relocation in
      match symbol_map !! Relocation.symbol relocation with
      | None => raise (KeyError (Relocation.symbol relocation))
      | Some symbol_index =>
          let info := Z.lor (Z.shiftl symbol_index 32) R_X86_64_PC32 in
          let addend := -4 in
          let relocation := relocation_entry encoder offset info addend in
          text_rela <- gets text_rela_section ;;
          section <- attr_of text_rela "_content" ;;
          modify (set_text_rela_section (Some (rela_append relocation section))) ;;;
          add_relocations encoder symbol_map rest
      end
  end.

(** Lines 137-145: the relocation section, created on first use. *)
Definition new_text_rela_section (w : t) : t :=
  match text_rela_section w with
  | Some _ => w
  | None =>
      let '(img, rela_index) := elf.bind_section ".rela.text" (image w) in
      let section :=
        {| elf.sec_index := rela_index;
           elf._content := [];
           elf.header :=
             {| elf.content_type := elf.AddendRelocations;
                elf.hdr_content_size := 0;
                elf.link_index := elf.symtab_index (image w);
                elf.info := elf.index (text_section w);
                elf.entry_size :=
                  if Z.eqb (elf_bitness (abi w)) 64 then 24 else 12 |} |} in
      set_text_rela_section (Some section) (set_image img w)
  end.

(** Lines 136-157. *)
Definition add_code_relocations (symbol_map : gmap string Z)
    (relocations : list Relocation.t) : M t unit :=
  if truthy relocations then
    (modify new_text_rela_section ;;;
     abi <- gets abi ;;
     let encoder := Encoder.mk (endianness abi) (elf_bitness abi) in
     add_relocations encoder symbol_map relocations)
  else ret tt.

(** Lines 159-166: the symbol of the function itself. *)
Definition add_function_symbol (function : ABIFunction)
    (function_offset : Z) : M t unit :=
  name_index <- on_image (elf.strtab_add (name function)) ;;
  text_index <- gets (fun w => elf.index (text_section w)) ;;
  let function_symbol :=
    {| elf.name_index := name_index;
       elf.value := function_offset;
       elf.content_size := len (code_content (encode function));
       elf.section_index := text_index;
       elf.binding := elf.Global;
       elf.type := elf.Function |} in
  _ <- on_image (elf.symtab_add function_symbol) ;;
  ret tt.

(** [ELFWriter.add_function] *)
Definition add_function (function : Function) : M t unit :=
  function <- assert_isinstance function ;;
  let encoded_function := encode function in
  function_offset <- gets (fun w => len (elf.content (text_section w))) ;;
  modify (fun w => set_text_section
            (elf.append (code_content encoded_function) (text_section w)) w) ;;;
  function_rodata_offset <-
    add_const_content (const_content encoded_function) ;;
  symbol_map <- add_const_symbols function_rodata_offset
                  (const_symbols encoded_function) ∅ ;;
  add_code_relocations symbol_map (code_relocations encoded_function) ;;;
  add_function_symbol function function_offset.

(** A sequence of calls, each made only if the ones before returned. *)
Fixpoint add_functions (functions : list Function) : M t unit :=
  match functions with
  | [] => ret tt
  | function :: rest => add_function function ;;; add_functions rest
  end.

(** [ELFWriter.__enter__] *)
Definition __enter__ : M (Globals * t) unit :=
  active <- on_globals (gets active_writer) ;;
  on_self (modify (set_previous_writer active)) ;;;
  self <- on_self (gets self) ;;
  on_globals (modify (set_active_writer (Some self))) ;;;
  output_path <- on_self (gets output_path) ;;
  file <- on_globals (open_w output_path) ;;
  on_self (modify (set_output_file (Some file))).

Section Serialisation.

(** Modelled from the spec: [image.symtab.bind()], which finalises the
    symbol table, and [image.as_bytearray], which serialises the whole
    image (its own tables and the bound sections, here read from the
    writer that holds them), are not part of the sources at hand. *)
Variable symtab_bind : elf.Image -> elf.Image.
Variable image_as_bytearray : t -> list byte.

(** [ELFWriter.__exit__]; [exc] is the exception of the block, if any. *)
Definition __exit__ (exc : option exn) : M (Globals * t) unit :=
  previous <- on_self (gets previous_writer) ;;
  on_globals (modify (set_active_writer previous)) ;;;
  on_self (modify (set_previous_writer None)) ;;;
  match exc with
  | None =>
      on_self (modify (fun w => set_image (symtab_bind (image w)) w)) ;;;
      output_file <- on_self (gets output_file) ;;
      file <- attr_of output_file "write" ;;
      data <- on_self (gets image_as_bytearray) ;;
      on_globals (file_write file data) ;;;
      on_globals (file_close file) ;;;
      on_self (modify (set_output_file None))
  | Some _ =>
      output_file <- on_self (gets output_file) ;;
      file <- attr_of output_file "name" ;;
      on_globals (os_unlink (file_name file)) ;;;
      on_self (modify (set_output_file None)) ;;;
      reraise exc
  end.

End Serialisation.

End ELFWriter.

(** ** Mach-O images and the Mach-O writer *)

(** Modelled from the spec: the Mach-O [Image] and its symbol class are
    not part of the sources at hand.  An image is created with a text
    section, a string table whose [add] appends a name and returns its
    index (no deduplication), and a list of symbols. *)
Module macho.

Inductive SymbolDescription : Type := Undefined | Defined.
Inductive SymbolType : Type := Absolute | SectionRelative | Indirect.
Inductive SymbolVisibility : Type := Private | External.

Record Symbol : Type := mkSymbol {
  description : SymbolDescription;
  type : SymbolType;
  visibility : SymbolVisibility;
  string_index : Z;
  section_index : Z;
  value : Z
}.

Record TextSection : Type := mkText {
  index : Z;
  content : list byte
}.

Definition append (data : list byte) (s : TextSection) : TextSection :=
  {| index := index s; content := content s ++ data |}.

Record Image : Type := mkImage {
  text_section : TextSection;
  string_table : list string;
  symbols : list Symbol
}.

Definition Image_new (abi : ABI) : Image :=
  {| text_section := mkText 1 []; string_table := []; symbols := [] |}.

End macho.

Module MachOWriter.

Record t : Type := mk {
  self : ref;
  output_path : string;
  previous_writer : option ref;
  abi : ABI;
  image : macho.Image;
  output_file : option File
}.

Definition set_image (v : macho.Image) (w : t) : t :=
  mk (self w) (output_path w) (previous_writer w) (abi w) v (output_file w).

Definition set_previous_writer (v : option ref) (w : t) : t :=
  mk (self w) (output_path w) v (abi w) (image w) (output_file w).

Definition set_output_file (v : option File) (w : t) : t :=
  mk (self w) (output_path w) (previous_writer w) (abi w) (image w) v.

(** [MachOWriter.__init__] *)
Definition __init__ (id : ref) (output_path : string) (abi : ABI) : t :=
  {| self := id;
     output_path := output_path;
     previous_writer := None;
     abi := abi;
     image := macho.Image_new abi;
     output_file := None |}.

(** [MachOWriter.__enter__] *)
Definition __enter__ : M (Globals * t) unit :=
  active <- on_globals (gets active_writer) ;;
  on_self (modify (set_previous_writer active)) ;;;
  self <- on_self (gets self) ;;
  on_globals (modify (set_active_writer (Some self))) ;;;
  output_path <- on_self (gets output_path) ;;
  file <- on_globals (open_w output_path) ;;
  on_self (modify (set_output_file (Some file))).

Section Serialisation.

(** Modelled from the spec: [image.as_bytearray] is not part of the
    sources at hand. *)
Variable image_as_bytearray : macho.Image -> list byte.

(** [MachOWriter.__exit__] *)
Definition __exit__ (exc : option exn) : M (Globals * t) unit :=
  previous <- on_self (gets previous_writer) ;;
  on_globals (modify (set_active_writer previous)) ;;;
  on_self (modify (set_previous_writer None)) ;;;
  match exc with
  | None =>
      output_file <- on_self (gets output_file) ;;
      file <- attr_of output_file "write" ;;
      data <- on_self (gets (fun w => image_as_bytearray (image w))) ;;
      on_globals (file_write file data) ;;;
      on_globals (file_close file) ;;;
      on_self (modify (set_output_file None))
  | Some _ =>
      output_file <- on_self (gets output_file) ;;
      file <- attr_of output_file "name" ;;
      on_globals (os_unlink (file_name file)) ;;;
      on_self (modify (set_output_file None)) ;;;
      reraise exc
  end.

End Serialisation.

(** [MachOWriter.add_function] *)
Definition add_function (function : Function) : M t unit :=
  function <- assert_isinstance function ;;
  let encoded_function := encode function in
  let function_code := as_bytearray encoded_function in
  function_offset <-
    gets (fun w => len (macho.content (macho.text_section (image w)))) ;;
  modify (fun w =>
    let img := image w in
    set_image {| macho.text_section :=
                   macho.append function_code (macho.text_section img);
                 macho.string_table := macho.string_table img;
                 macho.symbols := macho.symbols img |} w) ;;;
  string_index <- gets (fun w => len (macho.string_table (image w))) ;;
  modify (fun w =>
    let img := image w in
    set_image {| macho.text_section := macho.text_section img;
                 macho.string_table :=
                   macho.string_table img ++ ["_" +:+ name function];
                 macho.symbols := macho.symbols img |} w) ;;;
  section_index <- gets (fun w => macho.index (macho.text_section (image w))) ;;
  let function_symbol :=
    {| macho.description := macho.Defined;
       macho.type := macho.SectionRelative;
       macho.visibility := macho.External;
       macho.string_index := string_index;
       macho.section_index := section_index;
       macho.value := function_offset |} in
  modify (fun w =>
    let img := image w in
    set_image {| macho.text_section := macho.text_section img;
                 macho.string_table := macho.string_table img;
                 macho.symbols := macho.symbols img ++ [function_symbol] |} w).

End MachOWriter.

(** ** MS-COFF images and the MS-COFF writer *)

(** Modelled from the spec: the MS-COFF [Image], its text section and its
    symbol entries are not part of the sources at hand.  [add_section]
    records the section under its name and gives it its number (section
    numbers of the format start at one); [add_symbol] appends the entry
    with its name; a section's [write] appends bytes. *)
Module mscoff.

Inductive SymbolType : Type := non_function | function.
Inductive StorageClass : Type := external | static.

Record SymbolEntry : Type := mkSymbolEntry {
  value : Z;
  section_index : Z;
  symbol_type : SymbolType;
  storage_class : StorageClass
}.

Record TextSection : Type := mkText {
  index : Z;
  content : list byte
}.

Definition write (data : list byte) (s : TextSection) : TextSection :=
  {| index := index s; content := content s ++ data |}.

Record Image : Type := mkImage {
  sections : list string;
  symbols : list (SymbolEntry * string)
}.

Definition Image_new (abi : ABI) (input_path : option string) : Image :=
  {| sections := []; symbols := [] |}.

Definition add_section (name : string) (img : Image) : Image * Z :=
  ({| sections := sections img ++ [name]; symbols := symbols img |},
   len (sections img) + 1).

Definition add_symbol (symbol : SymbolEntry) (name : string) (img : Image)
    : Image :=
  {| sections := sections img; symbols := symbols img ++ [(symbol, name)] |}.

End mscoff.

Module MSCOFFWriter.

Record t : Type := mk {
  self : ref;
  output_path : string;
  previous_writer : option ref;
  abi : ABI;
  image : mscoff.Image;
  text_section : mscoff.TextSection;
  output_file : option File
}.

Definition set_image (v : mscoff.Image) (w : t) : t :=
  mk (self w) (output_path w) (previous_writer w) (abi w) v
     (text_section w) (output_file w).

Definition set_text_section (v : mscoff.TextSection) (w : t) : t :=
  mk (self w) (output_path w) (previous_writer w) (abi w) (image w)
     v (output_file w).

Definition set_previous_writer (v : option ref) (w : t) : t :=
  mk (self w) (output_path w) v (abi w) (image w)
     (text_section w) (output_file w).

Definition set_output_file (v : option File) (w : t) : t :=
  mk (self w) (output_path w) (previous_writer w) (abi w) (image w)
     (text_section w) v.

(** [MSCOFFWriter.__init__] *)
Definition __init__ (id : ref) (output_path : string) (abi : ABI)
    (input_path : option string) : t :=
  let image := mscoff.Image_new abi input_path in
  let '(image, text_index) := mscoff.add_section ".text" image in
  {| self := id;
     output_path := output_path;
     previous_writer := None;
     abi := abi;
     image := image;
     text_section := mscoff.mkText text_index [];
     output_file := None |}.

(** [MSCOFFWriter.__enter__] *)
Definition __enter__ : M (Globals * t) unit :=
  active <- on_globals (gets active_writer) ;;
  on_self (modify (set_previous_writer active)) ;;;
  self <- on_self (gets self) ;;
  on_globals (modify (set_active_writer (Some self))) ;;;
  output_path <- on_self (gets output_path) ;;
  file <- on_globals (open_w output_path) ;;
  on_self (modify (set_output_file (Some file))).

Section Serialisation.

(** Modelled from the spec: [image.as_bytearray] is not part of the
    sources at hand; it serialises the image with the sections added to
    it, here read from the writer that holds them. *)
Variable image_as_bytearray : t -> list byte.

(** [MSCOFFWriter.__exit__] *)
Definition __exit__ (exc : option exn) : M (Globals * t) unit :=
  previous <- on_self (gets previous_writer) ;;
  on_globals (modify (set_active_writer previous)) ;;;
  on_self (modify (set_previous_writer None)) ;;;
  match exc with
  | None =>
      output_file <- on_self (gets output_file) ;;
      file <- attr_of output_file "write" ;;
      data <- on_self (gets image_as_bytearray) ;;
      on_globals (file_write file data) ;;;
      on_globals (file_close file) ;;;
      on_self (modify (set_output_file None))
  | Some _ =>
      output_file <- on_self (gets output_file) ;;
      file <- attr_of output_file "name" ;;
      on_globals (os_unlink (file_name file)) ;;;
      on_self (modify (set_output_file None)) ;;;
      reraise exc
  end.

End Serialisation.

(** [MSCOFFWriter.add_function] *)
Definition add_function (function : Function) : M t unit :=
  function <- assert_isinstance function ;;
  let encoded_function := encode function in
  let function_code := as_bytearray encoded_function in
  function_offset <- gets (fun w => len (mscoff.content (text_section w))) ;;
  modify (fun w => set_text_section
            (mscoff.write function_code (text_section w)) w) ;;;
  text_index <- gets (fun w => mscoff.index (text_section w)) ;;
  let function_symbol :=
    {| mscoff.value := function_offset;
       mscoff.section_index := text_index;
       mscoff.symbol_type := mscoff.function;
       mscoff.storage_class := mscoff.external |} in
  modify (fun w => set_image
            (mscoff.add_symbol function_symbol (name function) (image w)) w).

End MSCOFFWriter.

(** ** The assembly (text) writer *)

Module AssemblyWriter.

Record t : Type := mk {
  self : ref;
  assembly_format : string;
  output_path : string;
  output_header : string;
  comment_prefix : string;
  previous_writer : option ref;
  output_file : option File
}.

Definition set_previous_writer (v : option ref) (w : t) : t :=
  mk (self w) (assembly_format w) (output_path w) (output_header w)
     (comment_prefix w) v (output_file w).

Definition set_output_file (v : option File) (w : t) : t :=
  mk (self w) (assembly_format w) (output_path w) (output_header w)
     (comment_prefix w) (previous_writer w) v.

(** The set literal of line 9 and the dict literal of lines 14-19. *)
Definition assembly_formats : gset string :=
  {["go"; "nasm"; "masm"; "gas"]}.

Definition comment_prefixes : gmap string string :=
  <["go" := "//"]> (<["nasm" := ";"]> (<["masm" := ";"]> (<["gas" := "#"]> ∅))).

Section Host.

(** [os.linesep] and [peachpy.__version__]. *)
Variable linesep : string.
Variable version : string.

(** [AssemblyWriter.__init__]: the new object, or the exception raised. *)
Definition __init__ (id : ref) (output_path assembly_format : string)
    (input_path : option string) : result t :=
  if bool_decide (assembly_format ∉ assembly_formats) then
    Raise (ValueError ("Unknown assembly format: " +:+ assembly_format))
  else
    match comment_prefixes !! assembly_format with
    | None => Raise (KeyError assembly_format)
    | Some comment_prefix =>
        let header_linea :=
          match input_path with
          | Some input_path =>
              [comment_prefix +:+ " Generated by PeachPy " +:+ version
                 +:+ " from " +:+ input_path; ""; ""]
          | None =>
              [comment_prefix +:+ " Generated by PeachPy " +:+ version; ""; ""]
          end in
        Ok {| self := id;
              assembly_format := assembly_format;
              output_path := output_path;
              output_header := String.concat linesep header_linea;
              comment_prefix := comment_prefix;
              previous_writer := None;
              output_file := None |}
    end.

(** [AssemblyWriter.add_function] *)
Definition add_function (function : Function) : M (Globals * t) unit :=
  function <- assert_isinstance function ;;
  assembly_format <- on_self (gets assembly_format) ;;
  let function_code := format function assembly_format in
  output_file <- on_self (gets output_file) ;;
  file <- attr_of output_file "write" ;;
  on_globals (file_write file (String.list_byte_of_string (function_code +:+ linesep))).

End Host.

(** [AssemblyWriter.__enter__] *)
Definition __enter__ : M (Globals * t) unit :=
  active <- on_globals (gets active_writer) ;;
  on_self (modify (set_previous_writer active)) ;;;
  self <- on_self (gets self) ;;
  on_globals (modify (set_active_writer (Some self))) ;;;
  output_path <- on_self (gets output_path) ;;
  file <- on_globals (open_w output_path) ;;
  on_self (modify (set_output_file (Some file))) ;;;
  output_header <- on_self (gets output_header) ;;
  on_globals (file_write file (String.list_byte_of_string output_header)).

(** [AssemblyWriter.__exit__] *)
Definition __exit__ (exc : option exn) : M (Globals * t) unit :=
  previous <- on_self (gets previous_writer) ;;
  on_globals (modify (set_active_writer previous)) ;;;
  on_self (modify (set_previous_writer None)) ;;;
  match exc with
  | None =>
      output_file <- on_self (gets output_file) ;;
      file <- attr_of output_file "close" ;;
      on_globals (file_close file) ;;;
      on_self (modify (set_output_file None))
  | Some _ =>
      output_file <- on_self (gets output_file) ;;
      file <- attr_of output_file "name" ;;
      on_globals (os_unlink (file_name file)) ;;;
      on_self (modify (set_output_file None)) ;;;
      reraise exc
  end.

End AssemblyWriter.

(** ** The null writer *)

Module NullWriter.

Record t : Type := mk {
  self : ref;
  previous_writer : option ref
}.

Definition set_previous_writer (v : option ref) (w : t) : t :=
  mk (self w) v.

(** [NullWriter.__init__] *)
Definition __init__ (id : ref) : t :=
  {| self := id; previous_writer := None |}.

(** [NullWriter.__enter__] *)
Definition __enter__ : M (Globals * t) unit :=
  active <- on_globals (gets active_writer) ;;
  on_self (modify (set_previous_writer active)) ;;;
  on_globals (modify (set_active_writer None)).

(** [NullWriter.__exit__] *)
Definition __exit__ (exc : option exn) : M (Globals * t) unit :=
  previous <- on_self (gets previous_writer) ;;
  on_globals (modify (set_active_writer previous)) ;;;
  on_self (modify (set_previous_writer None)).

End NullWriter.

(** ** Writers as one sum type, and scopes *)

Inductive Writer : Type :=
| Assembly (w : AssemblyWriter.t)
| ELF (w : ELFWriter.t)
| MachO (w : MachOWriter.t)
| MSCOFF (w : MSCOFFWriter.t)
| Null (w : NullWriter.t).

(** What the writers take from their host and from the collaborators
    outside the sources at hand (see the [Serialisation] sections). *)
Record Host : Type := mkHost {
  linesep : string;
  version : string;
  elf_symtab_bind : elf.Image -> elf.Image;
  elf_as_bytearray : ELFWriter.t -> list byte;
  macho_as_bytearray : macho.Image -> list byte;
  mscoff_as_bytearray : MSCOFFWriter.t -> list byte
}.

Definition self (w : Writer) : ref :=
  match w with
  | Assembly w => AssemblyWriter.self w
  | ELF w => ELFWriter.self w
  | MachO w => MachOWriter.self w
  | MSCOFF w => MSCOFFWriter.self w
  | Null w => NullWriter.self w
  end.

Definition previous_writer (w : Writer) : option ref :=
  match w with
  | Assembly w => AssemblyWriter.previous_writer w
  | ELF w => ELFWriter.previous_writer w
  | MachO w => MachOWriter.previous_writer w
  | MSCOFF w => MSCOFFWriter.previous_writer w
  | Null w => NullWriter.previous_writer w
  end.

(** The null writer has no [output_path]. *)
Definition output_path (w : Writer) : option string :=
  match w with
  | Assembly w => Some (AssemblyWriter.output_path w)
  | ELF w => Some (ELFWriter.output_path w)
  | MachO w => Some (MachOWriter.output_path w)
  | MSCOFF w => Some (MSCOFFWriter.output_path w)
  | Null _ => None
  end.

(** The null writer defines no [add_function]. *)
Definition supports_add_function (w : Writer) : bool :=
  match w with
  | Null _ => false
  | _ => true
  end.

(** A method of one variant, run on a writer known to be of it. *)
Definition as_variant {X A} (inj : X -> Writer) (m : M (Globals * X) A)
    (x : X) : M (Globals * Writer) A :=
  fun s => let '(r, (g, x')) := m (fst s, x) in (r, (g, inj x')).

(** [writer.__enter__()] *)
Definition enter : M (Globals * Writer) unit :=
  fun s =>
    match snd s with
    | Assembly w => as_variant Assembly AssemblyWriter.__enter__ w s
    | ELF w => as_variant ELF ELFWriter.__enter__ w s
    | MachO w => as_variant MachO MachOWriter.__enter__ w s
    | MSCOFF w => as_variant MSCOFF MSCOFFWriter.__enter__ w s
    | Null w => as_variant Null NullWriter.__enter__ w s
    end.

(** [writer.__exit__(exc_type, exc_value, traceback)] *)
Definition exit (host : Host) (exc : option exn) : M (Globals * Writer) unit :=
  fun s =>
    match snd s with
    | Assembly w => as_variant Assembly (AssemblyWriter.__exit__ exc) w s
    | ELF w =>
        as_variant ELF
          (ELFWriter.__exit__ (elf_symtab_bind host) (elf_as_bytearray host) exc)
          w s
    | MachO w =>
        as_variant MachO (MachOWriter.__exit__ (macho_as_bytearray host) exc) w s
    | MSCOFF w =>
        as_variant MSCOFF
          (MSCOFFWriter.__exit__ (mscoff_as_bytearray host) exc) w s
    | Null w => as_variant Null (NullWriter.__exit__ exc) w s
    end.

(** [writer.add_function(function)] *)
Definition add_function (host : Host) (function : Function)
    : M (Globals * Writer) unit :=
  fun s =>
    match snd s with
    | Assembly w =>
        as_variant Assembly
          (AssemblyWriter.add_function (linesep host) function) w s
    | ELF w => as_variant ELF (on_self (ELFWriter.add_function function)) w s
    | MachO w =>
        as_variant MachO (on_self (MachOWriter.add_function function)) w s
    | MSCOFF w =>
        as_variant MSCOFF (on_self (MSCOFFWriter.add_function function)) w s
    | Null _ => (Raise (AttributeError "add_function"), s)
    end.

(** The statements of a block that uses its writer: calls of
    [add_function] and [raise]. *)
Inductive statement : Type :=
| call_add_function (function : Function)
| raise_statement (e : exn).

Fixpoint block (host : Host) (statements : list statement)
    : M (Globals * Writer) unit :=
  match statements with
  | [] => ret tt
  | call_add_function function :: rest =>
      add_function host function ;;; block host rest
  | raise_statement e :: _ => raise e
  end.

(** [with writer: body] *)
Definition scope (host : Host) (body : M (Globals * Writer) unit)
    : M (Globals * Writer) unit :=
  with_statement enter (exit host) body.

(** ** Vocabulary of the statements below *)

(** The symbols the loop of lines 125-134 appends for the constants
    [cs], the first name being interned at [name_index]. *)
Fixpoint const_symbol_entries (name_index function_rodata_offset
    section_index : Z) (cs : list Constant.t) : list elf.Symbol :=
  match cs with
  | [] => []
  | c :: rest =>
      {| elf.name_index := name_index;
         elf.value := function_rodata_offset + Constant.offset c;
         elf.content_size := Constant.size c;
         elf.section_index := section_index;
         elf.binding := elf.Local;
         elf.type := elf.DataObject |}
      :: const_symbol_entries (name_index + 1) function_rodata_offset
           section_index rest
  end.

(** The dict that loop builds, the first symbol getting [index]. *)
Fixpoint const_symbol_map (index : Z) (cs : list Constant.t)
    (m : gmap string Z) : gmap string Z :=
  match cs with
  | [] => m
  | c :: rest => const_symbol_map (index + 1) rest (<[Constant.name c := index]> m)
  end.

(** The relocations reached before the first name missing from the
    dict, each with the index found for it; and that first missing name. *)
Fixpoint resolved (m : gmap string Z) (relocations : list Relocation.t)
    : list (Relocation.t * Z) :=
  match relocations with
  | [] => []
  | r :: rest =>
      match m !! Relocation.symbol r with
      | Some i => (r, i) :: resolved m rest
      | None => []
      end
  end.

Fixpoint unresolved (m : gmap string Z) (relocations : list Relocation.t)
    : option string :=
  match relocations with
  | [] => None
  | r :: rest =>
      match m !! Relocation.symbol r with
      | Some _ => unresolved m rest
      | None => Some (Relocation.symbol r)
      end
  end.

(** The bytes of the entry of a relocation resolved to an index, as
    line 155 builds them. *)
Definition entry_bytes (encoder : Encoder.t) (p : Relocation.t * Z)
    : list byte :=
  Encoder.uint64 encoder (Relocation.offset p.1)
    ++ Encoder.uint64 encoder (Z.lor (Z.shiftl p.2 32) 2)
    ++ Encoder.uint64 encoder (Z.land (-4) 0xFFFFFFFFFFFFFFFF).

(** The bytes of [.rela.text] so far (none before the section exists),
    and its header's declared size. *)
Definition rela_content (w : ELFWriter.t) : list byte :=
  match ELFWriter.text_rela_section w with
  | Some s => elf._content s
  | None => []
  end.

Definition rela_entry_size (w : ELFWriter.t) : option Z :=
  match ELFWriter.text_rela_section w with
  | Some s => Some (elf.entry_size (elf.header s))
  | None => None
  end.

Definition rela_content_size (w : ELFWriter.t) : Z :=
  match ELFWriter.text_rela_section w with
  | Some s => elf.hdr_content_size (elf.header s)
  | None => 0
  end.

(** The encoder the ELF writer builds from its ABI (line 148). *)
Definition encoder_of (w : ELFWriter.t) : Encoder.t :=
  Encoder.mk (endianness (ELFWriter.abi w)) (elf_bitness (ELFWriter.abi w)).

(** The symbols of a table that are functions: Global and Function. *)
Definition is_function_symbol (s : elf.Symbol) : bool :=
  match elf.binding s, elf.type s with
  | elf.Global, elf.Function => true
  | _, _ => false
  end.

Definition function_symbols (table : list elf.Symbol) : list elf.Symbol :=
  List.filter is_function_symbol table.

(** The code bytes of a list of functions, laid end to end. *)
Definition code_of (fs : list ABIFunction) : list byte :=
  concat (map (fun f => code_content (encode f)) fs).

(** The dict of a call: built from nothing, the first constant getting
    the next index of the symbol table. *)
Definition symbol_map_of (f : ABIFunction) (w : ELFWriter.t) : gmap string Z :=
  const_symbol_map (len (elf.symtab (ELFWriter.image w))) (const_symbols (encode f)) ∅.

(** The call can register its constant symbols: it has none, or a
    [.rodata] section exists once its constant data has been added. *)
Definition registers (f : ABIFunction) (w : ELFWriter.t) : Prop :=
  const_symbols (encode f) = [] \/ const_content (encode f) <> []
  \/ is_Some (ELFWriter.rodata_section w).

(** The symbol a call on [w] creates for the function itself. *)
Definition function_symbol_of (f : ABIFunction) (w : ELFWriter.t) : elf.Symbol :=
  {| elf.name_index :=
       len (elf.strtab (ELFWriter.image w)) + len (const_symbols (encode f));
     elf.value := len (elf.content (ELFWriter.text_section w));
     elf.content_size := len (code_content (encode f));
     elf.section_index := elf.index (ELFWriter.text_section w);
     elf.binding := elf.Global;
     elf.type := elf.Function |}.

(** How a call that registers its constants ends. *)
Definition outcome (f : ABIFunction) (w : ELFWriter.t) : result unit :=
  match unresolved (symbol_map_of f w) (code_relocations (encode f)) with
  | None => Ok tt
  | Some n => Raise (KeyError n)
  end.

Definition completes (f : ABIFunction) (w : ELFWriter.t) : bool :=
  match unresolved (symbol_map_of f w) (code_relocations (encode f)) with
  | None => true
  | Some _ => false
  end.

(** The relocations a call emits, with the indices packed into them. *)
Definition emitted (f : ABIFunction) (w : ELFWriter.t) : list (Relocation.t * Z) :=
  resolved (symbol_map_of f w) (code_relocations (encode f)).

(** The name a call binds for a section created on first use: [name]
    when the call supplies something for it and the section does not
    exist yet. *)
Definition newly_bound {A B} (name : string) (supplied : list A)
    (section : option B) : list string :=
  if truthy supplied then
    match section with None => [name] | Some _ => [] end
  else [].


(** The file object a writer holds while its scope is open. *)
Definition output_file (w : Writer) : option File :=
  match w with
  | Assembly w => AssemblyWriter.output_file w
  | ELF w => ELFWriter.output_file w
  | MachO w => MachOWriter.output_file w
  | MSCOFF w => MSCOFFWriter.output_file w
  | Null _ => None
  end.

(** A block leaves the registry alone: the slot and what the writer
    saved are after it what they were before it. *)
Definition keeps_registry (body : M (Globals * Writer) unit) : Prop :=
  forall s,
    active_writer (body s).2.1 = active_writer s.1 /\
    previous_writer (body s).2.2 = previous_writer s.2.

(** The scope of a writer is open on its file. *)
Definition open_on_file (s : Globals * Writer) : Prop :=
  forall p, output_path s.2 = Some p ->
    output_file s.2 = Some (mkFile p) /\ is_Some (fs s.1 !! p).

(** The bytes of [.rodata] so far (none before the section exists). *)
Definition rodata_content (w : ELFWriter.t) : list byte :=
  match ELFWriter.rodata_section w with
  | Some s => elf.content s
  | None => []
  end.

(** The header fields of [.rela.text] that are set once: type, link,
    info and entry size. *)
Definition rela_header (w : ELFWriter.t)
    : option (elf.SectionType * Z * Z * Z) :=
  match ELFWriter.text_rela_section w with
  | Some s =>
      Some (elf.content_type (elf.header s), elf.link_index (elf.header s),
            elf.info (elf.header s), elf.entry_size (elf.header s))
  | None => None
  end.



(** Every symbol lies in a section bound to the image: functions in
    [.text], constants in [.rodata]. *)
Definition symbols_in_bound_sections (w : ELFWriter.t) : Prop :=
  entry (elf.sections (ELFWriter.image w))
    (elf.index (ELFWriter.text_section w)) = Some ".text" /\
  (forall s, ELFWriter.rodata_section w = Some s ->
     entry (elf.sections (ELFWriter.image w)) (elf.index s) = Some ".rodata") /\
  forall sym, sym ∈ elf.symtab (ELFWriter.image w) ->
    (elf.type sym = elf.Function /\
     elf.section_index sym = elf.index (ELFWriter.text_section w)) \/
    (elf.type sym = elf.DataObject /\
     exists s, ELFWriter.rodata_section w = Some s /\
               elf.section_index sym = elf.index s).

(** The block [for function in functions: writer.add_function(function)]. *)
Definition add_all (functions : list ABIFunction) : list statement :=
  map (fun f => call_add_function (Bound f)) functions.

(** The encoded functions of a list, laid end to end. *)
Definition blob_of (fs : list ABIFunction) : list byte :=
  concat (map (fun f => as_bytearray (encode f)) fs).

(** The symbol entry [MSCOFFWriter.add_function] builds (lines 267-271). *)
Definition mscoff_function_symbol (value section_index : Z)
    : mscoff.SymbolEntry :=
  {| mscoff.value := value;
     mscoff.section_index := section_index;
     mscoff.symbol_type := mscoff.function;
     mscoff.storage_class := mscoff.external |}.

(** The text [AssemblyWriter.add_function] writes for each function of a
    list, in order. *)
Definition listing (host : Host) (assembly_format : string)
    (fs : list ABIFunction) : list byte :=
  concat (map (fun f => String.list_byte_of_string
                          (format f assembly_format +:+ linesep host)) fs).


(** ** Sample inputs *)

(** A 64-bit little-endian ABI. *)
Definition example_abi : ABI := mkABI Little 64.

(** A function without constants. *)
Definition example_f1 : ABIFunction :=
  {| name := "first";
     encode := {| code_content := [xc3]; const_content := [];
                  const_symbols := []; code_relocations := [];
                  as_bytearray := [xc3] |};
     format := fun _ => "ret" |}.

(** A function with one 8-byte constant, referenced once. *)
Definition example_f2 : ABIFunction :=
  {| name := "second";
     encode := {| code_content := [xf2; x0f; x10; x05; x00; x00; x00; x00; xc3];
                  const_content := [x00; x00; x00; x00; x00; x00; xf0; x3f];
                  const_symbols := [Constant.mk "one" 0 8];
                  code_relocations := [Relocation.mk 4 "one"];
                  as_bytearray :=
                    [xf2; x0f; x10; x05; x00; x00; x00; x00; xc3;
                     x00; x00; x00; x00; x00; x00; xf0; x3f] |};
     format := fun _ => "movsd" |}.

(** An ABI with 32-bit ELF objects (x32). *)
Definition example_abi32 : ABI := mkABI Little 32.

(** A function whose relocation names a constant of another function. *)
Definition example_dangling : ABIFunction :=
  {| name := "third";
     encode := {| code_content := [xc3]; const_content := [];
                  const_symbols := [];
                  code_relocations := [Relocation.mk 0 "one"];
                  as_bytearray := [xc3] |};
     format := fun _ => "ret" |}.

(** A function with a named constant but no constant data, and a
    relocation that names no constant of its own. *)
Definition example_unregistered : ABIFunction :=
  {| name := "fourth";
     encode := {| code_content := [xc3]; const_content := [];
                  const_symbols := [Constant.mk "empty" 0 0];
                  code_relocations := [Relocation.mk 0 "one"];
                  as_bytearray := [xc3] |};
     format := fun _ => "ret" |}.

(** A function with two constants of one name, referenced once. *)
Definition example_repeated : ABIFunction :=
  {| name := "fifth";
     encode := {| code_content := [xc3];
                  const_content := [x01; x00; x00; x00; x02; x00; x00; x00];
                  const_symbols := [Constant.mk "c" 0 4; Constant.mk "c" 4 4];
                  code_relocations := [Relocation.mk 0 "c"];
                  as_bytearray := [xc3] |};
     format := fun _ => "ret" |}.

(** A function whose second and third relocations name no constant of
    its own. *)
Definition example_two_dangling : ABIFunction :=
  {| name := "sixth";
     encode := {| code_content := [xc3];
                  const_content := [x00; x00; x00; x00; x00; x00; xf0; x3f];
                  const_symbols := [Constant.mk "one" 0 8];
                  code_relocations := [Relocation.mk 0 "one";
                                       Relocation.mk 4 "two";
                                       Relocation.mk 8 "three"];
                  as_bytearray := [xc3] |};
     format := fun _ => "ret" |}.

(** A fresh ELF writer. *)
Definition example_elf (abi : ABI) : ELFWriter.t :=
  ELFWriter.__init__ 1%nat "out.o" abi None.

(** A host with POSIX line ends and some serialisers. *)
Definition example_host : Host :=
  {| linesep := String (Ascii.ascii_of_nat 10) "";
     version := "0.2.0";
     elf_symtab_bind := fun image => image;
     elf_as_bytearray := fun w =>
       elf.content (ELFWriter.text_section w) ++ rela_content w;
     macho_as_bytearray := fun image => macho.content (macho.text_section image);
     mscoff_as_bytearray := fun w => mscoff.content (MSCOFFWriter.text_section w) |}.

(** Writer 7 is active and a stale file lies at the output path. *)
Definition example_globals : Globals :=
  {| active_writer := Some 7%nat; fs := {[ "out.o" := [x00] ]} |}.

(** * Properties *)

(** ** Lengths and tables *)

Lemma len_app {A} (l k : list A) : len (l ++ k) = len l + len k.
Proof. unfold len. rewrite length_app. lia. Qed.

Lemma len_nonneg {A} (l : list A) : 0 <= len l.
Proof. unfold len. lia. Qed.

Lemma entry_len {A} (table : list A) (n : nat) :
  entry table (Z.of_nat n) = table !! n.
Proof.
  unfold entry. destruct (Z.ltb_spec (Z.of_nat n) 0); [lia|].
  now rewrite Nat2Z.id.
Qed.

(** ** The byte encoder *)

Module EncoderFacts.

Lemma Z_of_byte_of_Z z : Z_of_byte (byte_of_Z z) = z mod 256.
Proof.
  unfold Z_of_byte, byte_of_Z.
  change 255 with (Z.ones 8). rewrite Z.land_ones by lia.
  change (2 ^ 8) with 256.
  pose proof (Z.mod_pos_bound z 256 ltac:(lia)) as Hb.
  destruct (Byte.of_N (Z.to_N (z mod 256))) as [b|] eqn:E.
  - apply Byte.to_of_N in E. rewrite E. lia.
  - apply Byte.of_N_None_iff in E. lia.
Qed.

Lemma le_value_uint64le n :
  0 <= n < 2 ^ 64 -> le_value (Encoder.uint64le n) = n.
Proof.
  intros Hn. unfold Encoder.uint64le. cbn [map le_value].
  rewrite !Z_of_byte_of_Z, !Z.shiftr_div_pow2 by lia.
  change (2 ^ (8 * 0)) with 1. change (2 ^ (8 * 1)) with 256.
  change (2 ^ (8 * 2)) with 65536. change (2 ^ (8 * 3)) with 16777216.
  change (2 ^ (8 * 4)) with 4294967296. change (2 ^ (8 * 5)) with 1099511627776.
  change (2 ^ (8 * 6)) with 281474976710656.
  change (2 ^ (8 * 7)) with 72057594037927936.
  change (2 ^ 64) with 18446744073709551616 in Hn.
  Z.div_mod_to_equations. lia.
Qed.

Lemma decode_uint64_uint64 e b n :
  0 <= n < 2 ^ 64 ->
  decode_uint64 e (Encoder.uint64 (Encoder.mk e b) n) = n.
Proof.
  intros Hn. unfold decode_uint64, Encoder.uint64. destruct e; cbn [Encoder.endianness].
  - now apply le_value_uint64le.
  - unfold Encoder.uint64be. rewrite rev_involutive. now apply le_value_uint64le.
Qed.

End EncoderFacts.

(** ** The ELF writer, phase by phase *)

Module ELFFacts.
Import ELFWriter.

Lemma add_const_symbols_bound cs : forall off m w s,
  rodata_section w = Some s ->
  add_const_symbols off cs m w =
    (Ok (const_symbol_map (len (elf.symtab (image w))) cs m),
     set_image
       {| elf.img_abi := elf.img_abi (image w);
          elf.source := elf.source (image w);
          elf.sections := elf.sections (image w);
          elf.strtab := elf.strtab (image w) ++ map Constant.name cs;
          elf.symtab := elf.symtab (image w)
            ++ const_symbol_entries (len (elf.strtab (image w))) off
                 (elf.index s) cs;
          elf.symtab_index := elf.symtab_index (image w) |} w).
Proof.
  induction cs as [|c cs IH]; intros off m w s Hs.
  - destruct w as [? ? ? ? [] ? ? ? ?]; simpl in *.
    unfold set_image; simpl. now rewrite !app_nil_r.
  - cbn [add_const_symbols].
    unfold bind at 1. unfold on_image at 1. cbn [elf.strtab_add].
    unfold bind at 1. unfold gets at 1.
    replace (rodata_section (set_image _ w)) with (Some s) by (now destruct w).
    unfold bind at 1. cbn [attr_of ret].
    unfold bind at 1. unfold on_image at 1. cbn [elf.symtab_add].
    erewrite IH by (destruct w; simpl in *; eassumption).
    destruct w as [? ? ? ? [] ? ? ? ?]; simpl in *.
    unfold set_image; simpl.
    rewrite !len_app. change (len [_]) with 1.
    now rewrite <- !app_assoc.
Qed.

Lemma add_const_symbols_unbound c cs off m w :
  rodata_section w = None ->
  add_const_symbols off (c :: cs) m w =
    (Raise (AttributeError "index"),
     set_image (elf.strtab_add (Constant.name c) (image w)).1 w).
Proof.
  intros Hs. cbn [add_const_symbols].
  unfold bind at 1. unfold on_image at 1. cbn [elf.strtab_add].
  unfold bind at 1. unfold gets at 1.
  replace (rodata_section (set_image _ w)) with (@None elf.ProgramBitsSection)
    by (now destruct w).
  reflexivity.
Qed.

(** A name of the call's constants maps to the index of the last
    constant of that name; another name keeps what the dict held. *)
Lemma const_symbol_map_other cs : forall index m n,
  n ∉ map Constant.name cs -> const_symbol_map index cs m !! n = m !! n.
Proof.
  induction cs as [|c cs IH]; intros index m n Hn; [reflexivity|].
  cbn [const_symbol_map]. rewrite IH.
  - apply lookup_insert_ne. intros E. apply Hn. rewrite <- E. simpl. left.
  - intros H. apply Hn. simpl. now right.
Qed.

Lemma const_symbol_map_found cs : forall index m n i,
  const_symbol_map index cs m !! n = Some i ->
  ((n ∉ map Constant.name cs) /\ m !! n = Some i) \/
  exists k c, cs !! k = Some c /\ Constant.name c = n /\ i = index + Z.of_nat k.
Proof.
  induction cs as [|c cs IH]; intros index m n i H.
  - left. split; [apply not_elem_of_nil | exact H].
  - cbn [const_symbol_map] in H. apply IH in H as [[Hn H]|(k & c' & Hk & Hc & ->)].
    + destruct (decide (Constant.name c = n)) as [E|E].
      * right. exists 0%nat, c. subst n. rewrite lookup_insert_eq in H.
        repeat split. injection H; lia.
      * left. rewrite lookup_insert_ne in H by exact E. split; [|exact H].
        simpl. intros [?|?]%elem_of_cons; [congruence | contradiction].
    + right. exists (S k), c'. repeat split; [exact Hk | exact Hc | lia].
Qed.

Lemma const_symbol_entries_length cs : forall ni off si,
  length (const_symbol_entries ni off si cs) = length cs.
Proof. induction cs; intros; simpl; [reflexivity | now rewrite IHcs]. Qed.

Lemma const_symbol_entries_lookup cs : forall ni off si k c,
  cs !! k = Some c ->
  const_symbol_entries ni off si cs !! k =
    Some {| elf.name_index := ni + Z.of_nat k;
            elf.value := off + Constant.offset c;
            elf.content_size := Constant.size c;
            elf.section_index := si;
            elf.binding := elf.Local;
            elf.type := elf.DataObject |}.
Proof.
  induction cs as [|c0 cs IH]; intros ni off si k c Hk; [discriminate|].
  destruct k as [|k]; simpl in *.
  - injection Hk as ->. now rewrite Z.add_0_r.
  - rewrite (IH _ _ _ _ _ Hk). do 2 f_equal. lia.
Qed.

Lemma const_symbol_entries_not_function cs : forall ni off si,
  function_symbols (const_symbol_entries ni off si cs) = [].
Proof. induction cs; intros; simpl; [reflexivity | apply IHcs]. Qed.

(** The relocation section after appending the entries [es] in turn. *)
Lemma rela_appends_content es : forall s,
  elf._content (fold_left (fun s e => rela_append e s) es s)
    = elf._content s ++ concat es /\
  elf.hdr_content_size (elf.header (fold_left (fun s e => rela_append e s) es s))
    = elf.hdr_content_size (elf.header s) + len (concat es) /\
  elf.entry_size (elf.header (fold_left (fun s e => rela_append e s) es s))
    = elf.entry_size (elf.header s) /\
  elf.sec_index (fold_left (fun s e => rela_append e s) es s) = elf.sec_index s.
Proof.
  induction es as [|e es IH]; intros s; simpl.
  - rewrite app_nil_r. change (len []) with 0. repeat split; lia.
  - destruct (IH (rela_append e s)) as (-> & -> & -> & ->). simpl.
    rewrite len_app, <- app_assoc. repeat split; lia.
Qed.

Lemma add_relocations_spec encoder m relocations : forall w s,
  text_rela_section w = Some s ->
  add_relocations encoder m relocations w =
    (match unresolved m relocations with
     | None => Ok tt
     | Some n => Raise (KeyError n)
     end,
     set_text_rela_section
       (Some (fold_left (fun s e => rela_append e s)
                (map (entry_bytes encoder) (resolved m relocations)) s)) w).
Proof.
  induction relocations as [|r rs IH]; intros w s Hs.
  - simpl. unfold ret. f_equal. destruct w; simpl in *. now subst.
  - cbn [add_relocations unresolved resolved].
    destruct (m !! Relocation.symbol r) as [i|] eqn:Hi.
    + unfold bind at 1. unfold gets at 1. rewrite Hs.
      unfold bind at 1. cbn [attr_of ret]. unfold bind at 1. unfold modify at 1.
      erewrite IH by (destruct w; reflexivity).
      reflexivity.
    + unfold raise. f_equal. destruct w; simpl in *. now subst.
Qed.

Lemma unresolved_None m relocations :
  unresolved m relocations = None ->
  map fst (resolved m relocations) = relocations.
Proof.
  induction relocations as [|r rs IH]; [reflexivity|]. simpl.
  destruct (m !! Relocation.symbol r); [|discriminate].
  intros H. simpl. now rewrite IH.
Qed.

Lemma resolved_prefix m relocations :
  map fst (resolved m relocations) `prefix_of` relocations.
Proof.
  induction relocations as [|r rs IH]; [reflexivity|]. simpl.
  destruct (m !! Relocation.symbol r); simpl.
  - now apply prefix_cons.
  - apply prefix_nil.
Qed.

Lemma resolved_lookup m relocations p :
  p ∈ resolved m relocations -> m !! Relocation.symbol p.1 = Some p.2.
Proof.
  induction relocations as [|r rs IH]; simpl; [intros H; inversion H|].
  destruct (m !! Relocation.symbol r) eqn:E; [|intros H; inversion H].
  intros [->|H]%elem_of_cons; [exact E | now apply IH].
Qed.

Lemma unresolved_missing m relocations r :
  r ∈ relocations -> m !! Relocation.symbol r = None ->
  exists n, unresolved m relocations = Some n /\ m !! n = None.
Proof.
  induction relocations as [|r0 rs IH]; [intros H; inversion H|].
  intros Hin Hr. simpl. destruct (m !! Relocation.symbol r0) eqn:E.
  - apply elem_of_cons in Hin as [->|Hin]; [congruence | now apply IH].
  - eauto.
Qed.

Lemma add_const_content_nil w : add_const_content [] w = (Ok 0, w).
Proof. reflexivity. Qed.

Lemma add_const_content_bound b cc w s :
  rodata_section w = Some s ->
  add_const_content (b :: cc) w =
    (Ok (len (elf.content s)),
     set_rodata_section (Some (elf.append (b :: cc) s)) w).
Proof.
  intros Hs. unfold add_const_content. cbn [truthy].
  unfold bind at 1. unfold gets at 1. rewrite Hs.
  unfold bind at 1. cbn [ret]. unfold bind at 1. unfold gets at 1. rewrite Hs.
  reflexivity.
Qed.

Lemma add_const_content_unbound b cc w :
  rodata_section w = None ->
  add_const_content (b :: cc) w =
    (Ok 0,
     set_rodata_section
       (Some (elf.mkBits (len (elf.sections (image w))) (b :: cc)))
       (set_image (elf.bind_section ".rodata" (image w)).1 w)).
Proof.
  intros Hs. unfold add_const_content. cbn [truthy].
  unfold bind at 1. unfold gets at 1. rewrite Hs.
  reflexivity.
Qed.

Lemma add_function_symbol_spec f off w :
  add_function_symbol f off w =
    (Ok tt,
     set_image
       {| elf.img_abi := elf.img_abi (image w);
          elf.source := elf.source (image w);
          elf.sections := elf.sections (image w);
          elf.strtab := elf.strtab (image w) ++ [name f];
          elf.symtab := elf.symtab (image w) ++
            [ {| elf.name_index := len (elf.strtab (image w));
                 elf.value := off;
                 elf.content_size := len (code_content (encode f));
                 elf.section_index := elf.index (text_section w);
                 elf.binding := elf.Global;
                 elf.type := elf.Function |} ];
          elf.symtab_index := elf.symtab_index (image w) |} w).
Proof. destruct w as [? ? ? ? [] ? ? ? ?]. reflexivity. Qed.

Lemma add_code_relocations_nil m w : add_code_relocations m [] w = (Ok tt, w).
Proof. reflexivity. Qed.

Lemma add_code_relocations_spec m r rs w :
  exists s,
    text_rela_section (new_text_rela_section w) = Some s /\
    add_code_relocations m (r :: rs) w =
    (match unresolved m (r :: rs) with
     | None => Ok tt
     | Some n => Raise (KeyError n)
     end,
     set_text_rela_section
       (Some (fold_left (fun s e => rela_append e s)
                (map (entry_bytes (encoder_of w)) (resolved m (r :: rs))) s))
       (new_text_rela_section w)).
Proof.
  assert (exists s, text_rela_section (new_text_rela_section w) = Some s) as [s Hs].
  { unfold new_text_rela_section. destruct (text_rela_section w) eqn:E; [eauto|].
    destruct w; simpl. eauto. }
  exists s. split; [exact Hs|].
  unfold add_code_relocations. cbn [truthy].
  unfold bind at 1. unfold modify at 1.
  unfold bind at 1. unfold gets at 1.
  rewrite (add_relocations_spec _ _ _ _ s Hs).
  replace (abi (new_text_rela_section w)) with (abi w).
  2:{ unfold new_text_rela_section. destruct (text_rela_section w); destruct w; reflexivity. }
  reflexivity.
Qed.

Lemma add_function_phases f w :
  add_function (Bound f) w =
    let w1 := set_text_section
                (elf.append (code_content (encode f)) (text_section w)) w in
    match add_const_content (const_content (encode f)) w1 with
    | (Ok off, w2) =>
        match add_const_symbols off (const_symbols (encode f)) ∅ w2 with
        | (Ok m, w3) =>
            match add_code_relocations m (code_relocations (encode f)) w3 with
            | (Ok _, w4) =>
                add_function_symbol f (len (elf.content (text_section w))) w4
            | (Raise e, w4) => (Raise e, w4)
            end
        | (Raise e, w3) => (Raise e, w3)
        end
    | (Raise e, w2) => (Raise e, w2)
    end.
Proof. reflexivity. Qed.

Lemma len_map {A B} (g : A -> B) (l : list A) : len (map g l) = len l.
Proof. unfold len. now rewrite length_map. Qed.


(** Appending entries leaves the header's type, link and info alone. *)
Lemma rela_appends_header es : forall s,
  let s' := fold_left (fun s e => rela_append e s) es s in
  elf.content_type (elf.header s') = elf.content_type (elf.header s) /\
  elf.link_index (elf.header s') = elf.link_index (elf.header s) /\
  elf.info (elf.header s') = elf.info (elf.header s).
Proof.
  induction es as [|e es IH]; intros s; simpl; [tauto|].
  destruct (IH (rela_append e s)) as (-> & -> & ->). simpl. tauto.
Qed.

(** What a call that registers its constants does to the writer. *)
Lemma add_function_effect f w :
  registers f w ->
  exists off si w',
    add_function (Bound f) w = (outcome f w, w') /\
    text_section w' = elf.append (code_content (encode f)) (text_section w) /\
    abi w' = abi w /\
    rela_content w' =
      rela_content w ++ concat (map (entry_bytes (encoder_of w)) (emitted f w)) /\
    rela_content_size w' =
      rela_content_size w
      + len (concat (map (entry_bytes (encoder_of w)) (emitted f w))) /\
    elf.symtab (image w') =
      elf.symtab (image w)
      ++ const_symbol_entries (len (elf.strtab (image w))) off si
           (const_symbols (encode f))
      ++ (if completes f w then [function_symbol_of f w] else []) /\
    elf.strtab (image w') =
      elf.strtab (image w) ++ map Constant.name (const_symbols (encode f))
      ++ (if completes f w then [name f] else []) /\
    elf.sections (image w') =
      elf.sections (image w)
      ++ newly_bound ".rodata" (const_content (encode f)) (rodata_section w)
      ++ newly_bound ".rela.text" (code_relocations (encode f))
           (text_rela_section w) /\
    (is_Some (rodata_section w') <->
       is_Some (rodata_section w) \/ const_content (encode f) <> []) /\
    (is_Some (text_rela_section w') <->
       is_Some (text_rela_section w) \/ code_relocations (encode f) <> []) /\
    self w' = self w /\ output_path w' = output_path w /\
    previous_writer w' = previous_writer w /\ output_file w' = output_file w /\
    rela_entry_size w' =
      match text_rela_section w with
      | Some s => Some (elf.entry_size (elf.header s))
      | None =>
          if truthy (code_relocations (encode f))
          then Some (if Z.eqb (elf_bitness (abi w)) 64 then 24 else 12)
          else None
      end /\
    rodata_section w' =
      (if truthy (const_content (encode f))
       then Some (elf.mkBits
                    match rodata_section w with
                    | Some s => elf.index s
                    | None => len (elf.sections (image w))
                    end
                    (rodata_content w ++ const_content (encode f)))
       else rodata_section w) /\
    off = (if truthy (const_content (encode f))
           then len (rodata_content w) else 0) /\
    (const_symbols (encode f) <> [] ->
     exists s', rodata_section w' = Some s' /\ si = elf.index s') /\
    rela_header w' =
      match text_rela_section w with
      | Some s =>
          Some (elf.content_type (elf.header s), elf.link_index (elf.header s),
                elf.info (elf.header s), elf.entry_size (elf.header s))
      | None =>
          if truthy (code_relocations (encode f))
          then Some (elf.AddendRelocations, elf.symtab_index (image w),
                     elf.index (text_section w),
                     if Z.eqb (elf_bitness (abi w)) 64 then 24 else 12)
          else None
      end /\
    elf.symtab_index (image w') = elf.symtab_index (image w).
Proof.
  intros Hreg. rewrite add_function_phases. cbv zeta.
  unfold outcome, completes, emitted, symbol_map_of, function_symbol_of, registers in *.
  destruct (encode f) as [code cc cs relocs blob] eqn:He.
  cbn [code_content const_content const_symbols code_relocations] in *.
  destruct w as [id path prev ab [iabi isrc isecs istr isym isi] [ti tc] rela rodata file].
  unfold rodata_content.
  cbn [image text_section abi rodata_section text_rela_section elf.symtab
       elf.strtab elf.sections elf.content elf.index elf.symtab_index] in *.
  assert (Hcs : exists off si w3,
    (let (r, w2) := add_const_content cc
         (set_text_section (elf.append code (elf.mkBits ti tc))
            (mk id path prev ab (elf.mkImage iabi isrc isecs istr isym isi)
                (elf.mkBits ti tc) rela rodata file)) in
     match r with
     | Ok off0 => add_const_symbols off0 cs ∅ w2
     | Raise e => (Raise e, w2)
     end) = (Ok (const_symbol_map (len isym) cs ∅), w3) /\
    self w3 = id /\ output_path w3 = path /\ previous_writer w3 = prev /\
    abi w3 = ab /\ output_file w3 = file /\
    text_section w3 = elf.mkBits ti (tc ++ code) /\
    text_rela_section w3 = rela /\
    image w3 = elf.mkImage iabi isrc
      (isecs ++ newly_bound ".rodata" cc rodata)
      (istr ++ map Constant.name cs)
      (isym ++ const_symbol_entries (len istr) off si cs) isi /\
    (is_Some (rodata_section w3) <-> is_Some rodata \/ cc <> []) /\
    rodata_section w3 =
      (if truthy cc
       then Some (elf.mkBits
                    match rodata with
                    | Some s => elf.index s
                    | None => len isecs
                    end
                    (match rodata with Some s => elf.content s | None => [] end
                     ++ cc))
       else rodata) /\
    off = (if truthy cc
           then len (match rodata with Some s => elf.content s | None => [] end)
           else 0) /\
    (cs <> [] -> exists s', rodata_section w3 = Some s' /\ si = elf.index s')).
  { destruct cc as [|b cc]; [|destruct rodata as [[ri rc]|]].
    - rewrite add_const_content_nil.
      destruct rodata as [[ri rc]|].
      + erewrite add_const_symbols_bound by reflexivity.
        eexists 0, ri, _. split; [reflexivity|]. simpl.
        rewrite app_nil_r. repeat split; try reflexivity; try tauto; eauto.
      + destruct Hreg as [->|[?|[? ?]]]; [|congruence|discriminate].
        eexists 0, 0, _. split; [reflexivity|]. simpl.
        rewrite !app_nil_r. repeat split; try reflexivity; try tauto.
    - erewrite add_const_content_bound by reflexivity.
      erewrite add_const_symbols_bound by reflexivity.
      eexists _, _, _. split; [reflexivity|]. simpl.
      rewrite app_nil_r. repeat split; try reflexivity; eauto.
    - erewrite add_const_content_unbound by reflexivity.
      erewrite add_const_symbols_bound by reflexivity.
      eexists _, _, _. split; [reflexivity|]. simpl.
      repeat split; try reflexivity; eauto; right; congruence. }
  destruct Hcs as (off & si & w3 & Hrun & Hid & Hpath & Hprev & Habi & Hfile
                   & Htext & Hrela & Himg & Hro & Hrod & Hoff & Hsi).
  exists off, si.
  destruct (add_const_content cc _) as [[off0|e0] w2]; [|discriminate].
  rewrite Hrun. clear Hrun w2 off0.
  destruct w3 as [id3 path3 prev3 ab3 img3 text3 rela3 rodata3 file3].
  cbn [self output_path previous_writer image text_section abi rodata_section
       text_rela_section output_file] in *.
  subst id3 path3 prev3 ab3 file3 text3 rela3 img3.
  unfold rela_content, rela_content_size, rela_entry_size, rela_header, encoder_of.
  cbn [image text_section abi rodata_section text_rela_section].
  destruct relocs as [|r rs].
  - rewrite add_code_relocations_nil, add_function_symbol_spec.
    eexists. split; [reflexivity|]. simpl. rewrite He. simpl.
    rewrite !app_nil_r. change (len []) with 0. rewrite Z.add_0_r.
    rewrite ?len_app, ?len_map, <- ?app_assoc.
    repeat split; try reflexivity; try tauto; try assumption.
  - match goal with |- context [add_code_relocations ?m _ ?w] =>
      destruct (add_code_relocations_spec m r rs w) as (s & Hs & ->) end.
    pose proof (rela_appends_content
      (map (entry_bytes (Encoder.mk (endianness ab) (elf_bitness ab)))
           (resolved (const_symbol_map (len isym) cs ∅) (r :: rs))) s)
      as (Hc & Hsz & Hes & _).
    pose proof (rela_appends_header
      (map (entry_bytes (Encoder.mk (endianness ab) (elf_bitness ab)))
           (resolved (const_symbol_map (len isym) cs ∅) (r :: rs))) s)
      as (Hh1 & Hh2 & Hh3).
    unfold encoder_of. cbn [abi].
    assert (Hs0 : elf._content s = match rela with Some s0 => elf._content s0 | None => [] end
              /\ elf.hdr_content_size (elf.header s)
                 = match rela with Some s0 => elf.hdr_content_size (elf.header s0) | None => 0 end
              /\ elf.entry_size (elf.header s)
                 = match rela with
                   | Some s0 => elf.entry_size (elf.header s0)
                   | None => if Z.eqb (elf_bitness ab) 64 then 24 else 12
                   end
              /\ elf.content_type (elf.header s)
                 = match rela with
                   | Some s0 => elf.content_type (elf.header s0)
                   | None => elf.AddendRelocations
                   end
              /\ elf.link_index (elf.header s)
                 = match rela with
                   | Some s0 => elf.link_index (elf.header s0)
                   | None => isi
                   end
              /\ elf.info (elf.header s)
                 = match rela with
                   | Some s0 => elf.info (elf.header s0)
                   | None => ti
                   end).
    { destruct rela; simpl in Hs; injection Hs as <-; repeat split; reflexivity. }
    destruct Hs0 as (Hs1 & Hs2 & Hs3 & Hs4 & Hs5 & Hs6).
    rewrite Hs1 in Hc. rewrite Hs2 in Hsz. rewrite Hs3 in Hes.
    rewrite Hs4 in Hh1. rewrite Hs5 in Hh2. rewrite Hs6 in Hh3.
    set (s' := fold_left _ _ s) in *.
    assert (Hstatic :
      Some (elf.content_type (elf.header s'), elf.link_index (elf.header s'),
            elf.info (elf.header s'), elf.entry_size (elf.header s'))
      = match rela with
        | Some s0 =>
            Some (elf.content_type (elf.header s0), elf.link_index (elf.header s0),
                  elf.info (elf.header s0), elf.entry_size (elf.header s0))
        | None =>
            Some (elf.AddendRelocations, isi, ti,
                  if Z.eqb (elf_bitness ab) 64 then 24 else 12)
        end).
    { rewrite Hh1, Hh2, Hh3, Hes. now destruct rela. }
    destruct (unresolved _ (r :: rs)) eqn:Hun.
    + eexists. split; [reflexivity|].
      destruct rela; simpl; rewrite ?app_nil_r, <- ?app_assoc;
        (repeat split; try reflexivity; try assumption; try tauto; eauto;
         try (f_equal; exact Hes)).
    + rewrite add_function_symbol_spec.
      eexists. split; [reflexivity|].
      destruct rela; simpl; rewrite He; simpl;
        rewrite ?app_nil_r, ?len_app, ?len_map, <- ?app_assoc;
        (repeat split; try reflexivity; try assumption; try tauto; eauto;
         try (f_equal; exact Hes)).
Qed.

Lemma add_function_registers f w :
  registers f w ->
  exists off si w',
    add_function (Bound f) w = (outcome f w, w') /\
    text_section w' = elf.append (code_content (encode f)) (text_section w) /\
    abi w' = abi w /\
    rela_content w' =
      rela_content w ++ concat (map (entry_bytes (encoder_of w)) (emitted f w)) /\
    rela_content_size w' =
      rela_content_size w
      + len (concat (map (entry_bytes (encoder_of w)) (emitted f w))) /\
    elf.symtab (image w') =
      elf.symtab (image w)
      ++ const_symbol_entries (len (elf.strtab (image w))) off si
           (const_symbols (encode f))
      ++ (if completes f w then [function_symbol_of f w] else []) /\
    elf.strtab (image w') =
      elf.strtab (image w) ++ map Constant.name (const_symbols (encode f))
      ++ (if completes f w then [name f] else []) /\
    elf.sections (image w') =
      elf.sections (image w)
      ++ newly_bound ".rodata" (const_content (encode f)) (rodata_section w)
      ++ newly_bound ".rela.text" (code_relocations (encode f))
           (text_rela_section w) /\
    (is_Some (rodata_section w') <->
       is_Some (rodata_section w) \/ const_content (encode f) <> []) /\
    (is_Some (text_rela_section w') <->
       is_Some (text_rela_section w) \/ code_relocations (encode f) <> []) /\
    self w' = self w /\ output_path w' = output_path w /\
    previous_writer w' = previous_writer w /\ output_file w' = output_file w /\
    rela_entry_size w' =
      match text_rela_section w with
      | Some s => Some (elf.entry_size (elf.header s))
      | None =>
          if truthy (code_relocations (encode f))
          then Some (if Z.eqb (elf_bitness (abi w)) 64 then 24 else 12)
          else None
      end.
Proof.
  intros Hreg.
  destruct (add_function_effect f w Hreg) as (off & si & w' & H).
  exists off, si, w'. tauto.
Qed.

Lemma add_function_unregistered f w c cs :
  const_content (encode f) = [] ->
  const_symbols (encode f) = c :: cs ->
  rodata_section w = None ->
  add_function (Bound f) w =
    (Raise (AttributeError "index"),
     set_image (elf.strtab_add (Constant.name c) (image w)).1
       (set_text_section
          (elf.append (code_content (encode f)) (text_section w)) w)).
Proof.
  intros Hcc Hcs Hro. rewrite add_function_phases. cbv zeta.
  rewrite Hcc, Hcs, add_const_content_nil.
  rewrite add_const_symbols_unbound by (destruct w; exact Hro).
  reflexivity.
Qed.

Lemma registers_dec f w :
  registers f w \/
  exists c cs, const_content (encode f) = [] /\
    const_symbols (encode f) = c :: cs /\ rodata_section w = None.
Proof.
  unfold registers.
  destruct (const_symbols (encode f)) as [|c cs]; [left; left; reflexivity|].
  destruct (const_content (encode f)) as [|b cc]; [|left; right; left; congruence].
  destruct (rodata_section w) eqn:E; [left; right; right; eauto|].
  right. eauto.
Qed.

(** A call that returns registered its constants. *)
Lemma add_function_Ok_registers f w w' :
  add_function (Bound f) w = (Ok tt, w') -> registers f w.
Proof.
  intros H. destruct (registers_dec f w) as [?|(c & cs & H1 & H2 & H3)]; [assumption|].
  rewrite (add_function_unregistered f w c cs H1 H2 H3) in H. discriminate.
Qed.

Lemma add_functions_cons f fs w w' :
  add_functions (Bound f :: fs) w = (Ok tt, w') ->
  exists w1, add_function (Bound f) w = (Ok tt, w1) /\
             add_functions fs w1 = (Ok tt, w').
Proof.
  cbn [add_functions]. unfold bind.
  destruct (add_function (Bound f) w) as [[[]|e] w1]; [eauto | discriminate].
Qed.

Lemma function_symbols_app l k :
  function_symbols (l ++ k) = function_symbols l ++ function_symbols k.
Proof. apply List.filter_app. Qed.

Lemma completes_outcome f w : outcome f w = Ok tt -> completes f w = true.
Proof.
  unfold outcome, completes.
  now destruct (unresolved _ _).
Qed.

(** What one returning call does to [.text], the string table and the
    symbol table. *)
Lemma add_function_Ok f w w' :
  add_function (Bound f) w = (Ok tt, w') ->
  text_section w' = elf.append (code_content (encode f)) (text_section w) /\
  abi w' = abi w /\
  (exists off si,
     elf.symtab (image w') =
       elf.symtab (image w)
       ++ const_symbol_entries (len (elf.strtab (image w))) off si
            (const_symbols (encode f))
       ++ [function_symbol_of f w]) /\
  elf.strtab (image w') =
    elf.strtab (image w) ++ map Constant.name (const_symbols (encode f))
    ++ [name f].
Proof.
  intros H. pose proof (add_function_Ok_registers _ _ _ H) as Hreg.
  destruct (add_function_registers f w Hreg)
    as (off & si & w'' & Hrun & Ht & Ha & _ & _ & Hsym & Hstr & _).
  rewrite Hrun in H. injection H as Hout <-.
  rewrite (completes_outcome _ _ Hout) in *.
  repeat split; eauto.
Qed.

Lemma add_functions_layout fs : forall w w',
  add_functions (map Bound fs) w = (Ok tt, w') ->
  elf.content (text_section w') = elf.content (text_section w) ++ code_of fs /\
  elf.index (text_section w') = elf.index (text_section w) /\
  (exists more, elf.strtab (image w') = elf.strtab (image w) ++ more) /\
  (exists more, elf.symtab (image w') = elf.symtab (image w) ++ more) /\
  length (function_symbols (elf.symtab (image w')))
    = (length (function_symbols (elf.symtab (image w))) + length fs)%nat /\
  forall k f, fs !! k = Some f ->
    exists sym,
      function_symbols (elf.symtab (image w'))
        !! (length (function_symbols (elf.symtab (image w))) + k)%nat = Some sym /\
      elf.binding sym = elf.Global /\ elf.type sym = elf.Function /\
      elf.value sym = len (elf.content (text_section w) ++ code_of (take k fs)) /\
      elf.content_size sym = len (code_content (encode f)) /\
      elf.section_index sym = elf.index (text_section w) /\
      entry (elf.strtab (image w')) (elf.name_index sym) = Some (name f).
Proof.
  induction fs as [|f0 fs IH]; intros w w' H.
  - injection H as <-. unfold code_of. simpl. rewrite !app_nil_r, Nat.add_0_r.
    repeat split; try (exists []; now rewrite app_nil_r). intros k f Hk. discriminate.
  - cbn [map] in H. apply add_functions_cons in H as (w1 & H1 & H).
    apply add_function_Ok in H1 as (Ht & _ & (off & si & Hsym) & Hstr).
    apply IH in H as (Hc & Hi & (ms & Hms) & (my & Hmy) & Hlen & Hk).
    rewrite Ht in Hc, Hi. simpl in Hc, Hi.
    assert (Hfs1 : function_symbols (elf.symtab (image w1)) =
              function_symbols (elf.symtab (image w)) ++ [function_symbol_of f0 w]).
    { rewrite Hsym, !function_symbols_app, const_symbol_entries_not_function.
      reflexivity. }
    rewrite Hfs1, length_app in Hlen. simpl in Hlen.
    split; [unfold code_of in *; simpl; now rewrite Hc, app_assoc|].
    split; [exact Hi|].
    split; [eexists; rewrite Hms, Hstr, <- !app_assoc; reflexivity|].
    split; [eexists; rewrite Hmy, Hsym, <- !app_assoc; reflexivity|].
    split; [simpl; lia|].
    intros [|k] f Hf.
    + injection Hf as ->. exists (function_symbol_of f w).
      rewrite Nat.add_0_r, Hmy, function_symbols_app, Hfs1.
      rewrite lookup_app_l by (rewrite length_app; simpl; lia).
      rewrite lookup_app_r by lia. rewrite Nat.sub_diag.
      unfold code_of. simpl. rewrite app_nil_r.
      repeat split.
      rewrite Hms, Hstr. simpl.
      rewrite <- len_map with (g := Constant.name), <- len_app.
      unfold len. rewrite entry_len.
      rewrite lookup_app_l by (rewrite !length_app; simpl; lia).
      rewrite app_assoc, lookup_app_r by lia. now rewrite Nat.sub_diag.
    + simpl in Hf. destruct (Hk k f Hf) as (sym & Hs & Hb & Hty & Hv & Hsz & Hsi & Hn).
      exists sym. rewrite Hfs1, length_app in Hs. simpl in Hs.
      replace (length (function_symbols (elf.symtab (image w))) + S k)%nat
        with (length (function_symbols (elf.symtab (image w))) + 1 + k)%nat by lia.
      repeat split; try assumption.
      * rewrite Hv, Ht. unfold code_of. simpl. now rewrite <- app_assoc.
      * rewrite Hsi, Ht. reflexivity.
Qed.

Lemma addend_decodes e b :
  decode_int64 e (Encoder.uint64 (Encoder.mk e b) (Z.land (-4) 0xFFFFFFFFFFFFFFFF)) = -4.
Proof. destruct e; vm_compute; reflexivity. Qed.

Lemma rela_content_frame w img txt :
  rela_content (set_image img (set_text_section txt w)) = rela_content w.
Proof. destruct w; reflexivity. Qed.

Lemma symbol_map_of_found f w n i :
  symbol_map_of f w !! n = Some i ->
  exists k c, const_symbols (encode f) !! k = Some c /\ Constant.name c = n /\
              i = len (elf.symtab (image w)) + Z.of_nat k.
Proof.
  intros H. apply const_symbol_map_found in H as [[_ H]|H]; [|exact H].
  rewrite lookup_empty in H. discriminate.
Qed.

Lemma entry_app {A} (l k : list A) (i : nat) :
  entry (l ++ k) (len l + Z.of_nat i) = k !! i.
Proof.
  replace (len l + Z.of_nat i) with (Z.of_nat (length l + i)) by (unfold len; lia).
  rewrite entry_len, lookup_app_r by lia. f_equal. lia.
Qed.







Lemma const_symbol_map_defined cs : forall index m n,
  n ∈ map Constant.name cs -> is_Some (const_symbol_map index cs m !! n).
Proof.
  induction cs as [|c cs IH]; intros index m n Hn; [inversion Hn|].
  cbn [const_symbol_map].
  destruct (decide (n ∈ map Constant.name cs)) as [Hin|Hout].
  - now apply IH.
  - simpl in Hn. apply elem_of_cons in Hn as [->|Hn]; [|contradiction].
    rewrite const_symbol_map_other, lookup_insert_eq by exact Hout. eauto.
Qed.

(** The first name missing from the dict: the relocations before it
    were all found. *)
Lemma unresolved_first m relocations n :
  unresolved m relocations = Some n ->
  exists before r0 after,
    relocations = before ++ r0 :: after /\
    Relocation.symbol r0 = n /\
    m !! n = None /\
    forall r', r' ∈ before -> is_Some (m !! Relocation.symbol r').
Proof.
  induction relocations as [|r rs IH]; [discriminate|]. simpl.
  destruct (m !! Relocation.symbol r) as [i|] eqn:E.
  - intros H. destruct (IH H) as (before & r0 & after & -> & Hn & Hm & Hb).
    exists (r :: before), r0, after. repeat split; try assumption.
    intros r' [->|Hr']%elem_of_cons; [rewrite E; eauto | now apply Hb].
  - intros [= <-]. exists [], r, rs. repeat split; try assumption.
    intros r' Hr'. inversion Hr'.
Qed.

(** The dict of a call holds names of the call's constants only. *)
Lemma symbol_map_of_names f w x :
  is_Some (symbol_map_of f w !! x) ->
  x ∈ map Constant.name (const_symbols (encode f)).
Proof.
  intros [i Hi]. unfold symbol_map_of in Hi.
  apply const_symbol_map_found in Hi as [[_ Hi]|(k & c & Hk & Hc & _)].
  - rewrite lookup_empty in Hi. discriminate.
  - apply list_elem_of_fmap. exists c. split; [now symmetry|].
    eapply list_elem_of_lookup_2. exact Hk.
Qed.







End ELFFacts.

(** ** The ELF writer: the claims *)

Module ELFProperties.
Import ELFWriter ELFFacts EncoderFacts.

(** Claim C1.  On a fresh ELF writer, after a sequence of calls of
    [add_function] that all return, [.text] holds the code of the
    functions end to end and the symbol table holds one Global/Function
    symbol per call, in call order.  The symbol of the [k]-th function
    has for value the total length of the code of the functions added
    before it (the length of [.text] when its call began), for size the
    length of its own code, for section [.text], and for name the name
    of the function. *)
Theorem function_symbols_follow_text_layout
    (id : ref) (path : string) (abi : ABI) (input_path : option string)
    (fs : list ABIFunction) (w' : ELFWriter.t) :
  add_functions (map Bound fs) (__init__ id path abi input_path) = (Ok tt, w') ->
  elf.content (text_section w') = code_of fs /\
  length (function_symbols (elf.symtab (image w'))) = length fs /\
  forall k f, fs !! k = Some f ->
    exists sym,
      function_symbols (elf.symtab (image w')) !! k = Some sym /\
      elf.binding sym = elf.Global /\ elf.type sym = elf.Function /\
      elf.value sym = len (code_of (take k fs)) /\
      elf.content_size sym = len (code_content (encode f)) /\
      elf.section_index sym = elf.index (text_section w') /\
      entry (elf.strtab (image w')) (elf.name_index sym) = Some (name f).
Proof.
  intros H. apply add_functions_layout in H as (Hc & Hi & _ & _ & Hlen & Hk).
  split; [exact Hc|]. split; [exact Hlen|].
  intros k f Hf. destruct (Hk k f Hf) as (sym & Hs & Hb & Ht & Hv & Hsz & Hsi & Hn).
  exists sym. rewrite Hi. repeat split; assumption.
Qed.

Lemma function_symbols_follow_text_layout_witness :
  let w' := (add_functions (map Bound [example_f1; example_f2])
               (example_elf example_abi)).2 in
  elf.content (text_section w') = code_of [example_f1; example_f2] /\
  length (function_symbols (elf.symtab (image w'))) = 2%nat /\
  forall k f, [example_f1; example_f2] !! k = Some f ->
    exists sym,
      function_symbols (elf.symtab (image w')) !! k = Some sym /\
      elf.binding sym = elf.Global /\ elf.type sym = elf.Function /\
      elf.value sym = len (code_of (take k [example_f1; example_f2])) /\
      elf.content_size sym = len (code_content (encode f)) /\
      elf.section_index sym = elf.index (text_section w') /\
      entry (elf.strtab (image w')) (elf.name_index sym) = Some (name f).
Proof.
  apply (function_symbols_follow_text_layout 1%nat "out.o" example_abi None
           [example_f1; example_f2]).
  vm_compute. reflexivity.
Defined.

(** Claim C3.  Whatever a call of [add_function] does, the bytes it
    appends to [.rela.text] are the entries of the relocations it
    reached (all of them when it returns), in order.  Each entry is the
    encoding of the relocation's offset, of
    [(symbol_index << 32) | 2] and of [-4 & 0xFFFFFFFFFFFFFFFF], which
    reads back as the signed 64-bit integer [-4]; and [symbol_index] is
    the index the symbol table gave, within this call, to a Local
    DataObject symbol created for a constant of the call whose name is
    the name the relocation refers to. *)
Theorem relocation_entries_name_call_constants
    (w : ELFWriter.t) (f : ABIFunction) (r : result unit) (w' : ELFWriter.t) :
  add_function (Bound f) w = (r, w') ->
  exists relocations : list (Relocation.t * Z),
    map fst relocations `prefix_of` code_relocations (encode f) /\
    (r = Ok tt -> map fst relocations = code_relocations (encode f)) /\
    rela_content w' =
      rela_content w
      ++ concat (map (fun p =>
           Encoder.uint64 (encoder_of w) (Relocation.offset p.1)
           ++ Encoder.uint64 (encoder_of w) (Z.lor (Z.shiftl p.2 32) 2)
           ++ Encoder.uint64 (encoder_of w) (Z.land (-4) 0xFFFFFFFFFFFFFFFF))
         relocations) /\
    decode_int64 (endianness (abi w))
      (Encoder.uint64 (encoder_of w) (Z.land (-4) 0xFFFFFFFFFFFFFFFF)) = -4 /\
    forall p, p ∈ relocations ->
      exists k c sym,
        const_symbols (encode f) !! k = Some c /\
        Constant.name c = Relocation.symbol p.1 /\
        p.2 = len (elf.symtab (image w)) + Z.of_nat k /\
        entry (elf.symtab (image w')) p.2 = Some sym /\
        elf.binding sym = elf.Local /\ elf.type sym = elf.DataObject /\
        entry (elf.strtab (image w')) (elf.name_index sym)
          = Some (Relocation.symbol p.1).
Proof.
  intros H.
  destruct (registers_dec f w) as [Hreg|(c & cs & H1 & H2 & H3)].
  - destruct (add_function_registers f w Hreg)
      as (off & si & w'' & Hrun & _ & _ & Hrc & _ & Hsym & Hstr & _).
    rewrite Hrun in H. injection H as Hout <-.
    exists (emitted f w). split; [apply resolved_prefix|].
    split.
    { intros ->. unfold outcome in Hout. apply unresolved_None.
      now destruct (unresolved _ _). }
    split; [exact Hrc|]. split; [apply addend_decodes|].
    intros p Hp. apply resolved_lookup in Hp.
    apply symbol_map_of_found in Hp as (k & c & Hk & Hc & Hi).
    pose proof (lookup_lt_Some _ _ _ Hk) as Hlt.
    exists k, c. eexists. split; [exact Hk|]. split; [exact Hc|]. split; [exact Hi|].
    rewrite Hi, Hsym, Hstr, !entry_app.
    rewrite lookup_app_l by (rewrite const_symbol_entries_length; lia).
    rewrite (const_symbol_entries_lookup _ _ _ _ _ _ Hk).
    split; [reflexivity|]. cbn [elf.binding elf.type elf.name_index].
    repeat split. rewrite entry_app.
    rewrite lookup_app_l by (rewrite length_map; lia).
    rewrite list_lookup_fmap, Hk. simpl. now rewrite Hc.
  - rewrite (add_function_unregistered f w c cs H1 H2 H3) in H.
    injection H as <- <-. exists [].
    split; [apply prefix_nil|]. split; [discriminate|].
    split; [simpl; now rewrite rela_content_frame, app_nil_r|].
    split; [apply addend_decodes|].
    intros p Hp. inversion Hp.
Qed.

Lemma relocation_entries_name_call_constants_witness :
  exists relocations : list (Relocation.t * Z),
    map fst relocations = [Relocation.mk 4 "one"] /\
    rela_content (add_function (Bound example_f2) (example_elf example_abi)).2 =
      concat (map (fun p =>
           Encoder.uint64 (encoder_of (example_elf example_abi)) (Relocation.offset p.1)
           ++ Encoder.uint64 (encoder_of (example_elf example_abi)) (Z.lor (Z.shiftl p.2 32) 2)
           ++ Encoder.uint64 (encoder_of (example_elf example_abi)) (Z.land (-4) 0xFFFFFFFFFFFFFFFF))
         relocations).
Proof.
  destruct (relocation_entries_name_call_constants (example_elf example_abi)
              example_f2 (Ok tt)
              (add_function (Bound example_f2) (example_elf example_abi)).2)
    as (relocations & _ & Hall & Hcontent & _).
  - vm_compute. reflexivity.
  - exists relocations. split; [apply Hall; reflexivity | exact Hcontent].
Defined.

(** The packed info field fits 64 bits when the index fits 32. *)
Lemma info_range i :
  0 <= i < 2 ^ 32 -> 0 <= Z.lor (Z.shiftl i 32) 2 < 2 ^ 64.
Proof.
  intros Hi.
  assert (Hland : Z.land (Z.shiftl i 32) 2 = 0).
  { apply Z.bits_inj'. intros n Hn.
    rewrite Z.land_spec, Z.bits_0, Z.shiftl_spec by lia.
    destruct (Z.eq_dec n 1) as [->|Hne].
    - now rewrite Z.testbit_neg_r by lia.
    - replace (Z.testbit 2 n) with false; [apply andb_false_r|].
      change 2 with (2 ^ 1). symmetry. now apply Z.pow2_bits_false. }
  rewrite <- Z.lxor_lor, <- Z.add_nocarry_lxor by exact Hland.
  rewrite Z.shiftl_mul_pow2 by lia. lia.
Qed.

(** Read back field by field, an entry holds the relocation's offset,
    [(index << 32) | 2] and the signed addend [-4], when offset and index
    fit their fields. *)
Lemma relocation_entry_decodes e b (r : Relocation.t) (i : Z) :
  0 <= Relocation.offset r < 2 ^ 64 ->
  0 <= i < 2 ^ 32 ->
  decode_uint64 e (take 8 (entry_bytes (Encoder.mk e b) (r, i)))
    = Relocation.offset r /\
  decode_uint64 e (take 8 (drop 8 (entry_bytes (Encoder.mk e b) (r, i))))
    = Z.lor (Z.shiftl i 32) 2 /\
  decode_int64 e (drop 16 (entry_bytes (Encoder.mk e b) (r, i))) = -4.
Proof.
  intros Ho Hi. apply info_range in Hi.
  pose proof (decode_uint64_uint64 e b _ Ho) as H1.
  pose proof (decode_uint64_uint64 e b _ Hi) as H2.
  pose proof (addend_decodes e b) as H3.
  unfold entry_bytes. cbn [fst snd].
  assert (Hlen : forall n, length (Encoder.uint64 (Encoder.mk e b) n) = 8%nat)
    by (intros n; now destruct e).
  set (l1 := Encoder.uint64 _ (Relocation.offset r)) in *.
  set (l2 := Encoder.uint64 _ (Z.lor _ _)) in *.
  set (l3 := Encoder.uint64 _ (Z.land _ _)) in *.
  assert (E1 : take 8 (l1 ++ l2 ++ l3) = l1)
    by (apply take_app_length'; symmetry; apply Hlen).
  assert (E2 : drop 8 (l1 ++ l2 ++ l3) = l2 ++ l3)
    by (apply drop_app_length'; symmetry; apply Hlen).
  assert (E3 : take 8 (l2 ++ l3) = l2)
    by (apply take_app_length'; symmetry; apply Hlen).
  assert (E4 : drop 8 (l2 ++ l3) = l3)
    by (apply drop_app_length'; symmetry; apply Hlen).
  replace (drop 16 (l1 ++ l2 ++ l3)) with (drop 8 (drop 8 (l1 ++ l2 ++ l3)))
    by (now rewrite drop_drop).
  rewrite E1, E2, E3, E4. auto.
Qed.



(** Claim C10, amended.  When the call can register its constant
    symbols (it has none, or [.rodata] exists once its constant data is
    added) and one of its relocations refers to a name that no constant
    of the same call bears, [add_function] raises [KeyError] for the
    first such name: the relocations before the one that fails all name
    constants of the call, and the one that fails does not.  The dict is
    built from nothing in every call, so symbols created for earlier
    functions, present in the symbol table of [w], are never found. *)
Theorem unresolved_relocation_raises_KeyError
    (w : ELFWriter.t) (f : ABIFunction) (r : Relocation.t) :
  registers f w ->
  r ∈ code_relocations (encode f) ->
  Relocation.symbol r ∉ map Constant.name (const_symbols (encode f)) ->
  exists n w',
    add_function (Bound f) w = (Raise (KeyError n), w') /\
    n ∈ map Relocation.symbol (code_relocations (encode f)) /\
    (n ∉ map Constant.name (const_symbols (encode f))) /\
    exists before r0 after,
      code_relocations (encode f) = before ++ r0 :: after /\
      Relocation.symbol r0 = n /\
      forall r', r' ∈ before ->
        Relocation.symbol r' ∈ map Constant.name (const_symbols (encode f)).
Proof.
  intros Hreg Hr Hn.
  destruct (add_function_registers f w Hreg) as (off & si & w' & Hrun & _).
  assert (Hnone : symbol_map_of f w !! Relocation.symbol r = None).
  { unfold symbol_map_of. rewrite const_symbol_map_other by exact Hn.
    apply lookup_empty. }
  destruct (unresolved_missing _ _ _ Hr Hnone) as (n & Hun & Hmiss).
  exists n, w'. unfold outcome in Hrun. rewrite Hun in Hrun.
  split; [exact Hrun|].
  destruct (unresolved_first _ _ _ Hun)
    as (before & r0 & after & Hrs & Hr0 & _ & Hbefore).
  split; [|split].
  - rewrite Hrs, map_app. apply elem_of_app. right. simpl. rewrite Hr0. left.
  - intros Hin.
    destruct (const_symbol_map_defined (const_symbols (encode f))
                (len (elf.symtab (image w))) ∅ n Hin) as [i Hi].
    unfold symbol_map_of in Hmiss. congruence.
  - exists before, r0, after. split; [exact Hrs|]. split; [exact Hr0|].
    intros r' Hr'. eapply symbol_map_of_names. apply Hbefore. exact Hr'.
Qed.

Lemma unresolved_relocation_raises_KeyError_witness :
  (exists w',
     add_function (Bound example_dangling)
       (add_function (Bound example_f2) (example_elf example_abi)).2
     = (Raise (KeyError "one"), w')) /\
  (exists w',
     add_function (Bound example_two_dangling) (example_elf example_abi)
     = (Raise (KeyError "two"), w')).
Proof.
  split.
  - destruct (unresolved_relocation_raises_KeyError
                (add_function (Bound example_f2) (example_elf example_abi)).2
                example_dangling (Relocation.mk 0 "one"))
      as (n & w' & Hrun & Hn & _).
    + left. reflexivity.
    + simpl. left.
    + simpl. apply not_elem_of_nil.
    + exists w'. simpl in Hn. apply list_elem_of_singleton in Hn. now subst n.
  - destruct (unresolved_relocation_raises_KeyError
                (example_elf example_abi) example_two_dangling
                (Relocation.mk 8 "three"))
      as (n & w' & Hrun & _ & Hout & before & r0 & after & Hrs & Hr0 & Hbefore).
    + right. left. discriminate.
    + simpl. right. right. left.
    + simpl. intros H. apply list_elem_of_singleton in H. discriminate.
    + exists w'. rewrite Hrun. repeat f_equal.
      simpl in Hrs, Hout, Hbefore.
      destruct before as [|b1 [|b2 before]].
      * injection Hrs as <- _. subst n. exfalso. apply Hout. simpl. left.
      * injection Hrs as _ <- _. now subst n.
      * exfalso. injection Hrs as _ <- _.
        specialize (Hbefore (Relocation.mk 4 "two")).
        assert (Hin : Relocation.mk 4 "two" ∈ b1 :: Relocation.mk 4 "two" :: before)
          by (right; left).
        apply Hbefore in Hin. simpl in Hin.
        apply list_elem_of_singleton in Hin. discriminate.
Defined.

(** Claim C10 as stated fails: a function with a constant symbol but no
    constant data, added before any [.rodata] exists, has a relocation
    that names no constant of its own, and the call raises
    [AttributeError] (line 130), not a lookup error. *)
Lemma unregistered_call_raises_AttributeError :
  (exists r, r ∈ code_relocations (encode example_unregistered) /\
     Relocation.symbol r ∉ map Constant.name (const_symbols (encode example_unregistered))) /\
  (add_function (Bound example_unregistered) (example_elf example_abi)).1
    = Raise (AttributeError "index").
Proof.
  split; [|vm_compute; reflexivity].
  exists (Relocation.mk 0 "one"). split; [simpl; left|].
  simpl. intros H. apply list_elem_of_singleton in H. discriminate.
Qed.

(** Every entry is 24 bytes long, whatever the bit width of the ABI. *)
Lemma entry_bytes_length encoder p : len (entry_bytes encoder p) = 24.
Proof.
  unfold entry_bytes, Encoder.uint64.
  now destruct (Encoder.endianness encoder).
Qed.

(** The declared content size of [.rela.text] grows by the number of
    bytes appended, 24 for each relocation reached. *)
Lemma rela_declared_size_tracks_content w f r w' :
  add_function (Bound f) w = (r, w') ->
  exists relocations : list (Relocation.t * Z),
    map fst relocations `prefix_of` code_relocations (encode f) /\
    len (rela_content w') = len (rela_content w) + 24 * len relocations /\
    rela_content_size w' = rela_content_size w + 24 * len relocations.
Proof.
  intros H.
  assert (Hlen : forall l : list (Relocation.t * Z),
            len (concat (map (entry_bytes (encoder_of w)) l)) = 24 * len l).
  { induction l as [|p l IH]; [reflexivity|]. cbn [map concat].
    rewrite len_app, entry_bytes_length, IH. unfold len. simpl length. lia. }
  destruct (registers_dec f w) as [Hreg|(c & cs & H1 & H2 & H3)].
  - destruct (add_function_registers f w Hreg)
      as (off & si & w'' & Hrun & _ & _ & Hrc & Hsz & _).
    rewrite Hrun in H. injection H as _ <-.
    exists (emitted f w). split; [apply resolved_prefix|].
    rewrite Hrc, Hsz, len_app, Hlen. split; reflexivity.
  - rewrite (add_function_unregistered f w c cs H1 H2 H3) in H.
    injection H as _ <-. exists []. split; [apply prefix_nil|].
    destruct w. simpl. unfold rela_content, rela_content_size. simpl.
    change (len []) with 0. split; lia.
Qed.

(** On a 64-bit ELF target a relocation section created by the call
    declares the entry size its entries have. *)
Lemma rela_entry_size_on_64_bit_target w f w' s :
  elf_bitness (abi w) = 64 ->
  text_rela_section w = None ->
  add_function (Bound f) w = (Ok tt, w') ->
  text_rela_section w' = Some s ->
  elf.entry_size (elf.header s) = 24.
Proof.
  intros Hbits Hnone H Hs.
  pose proof (add_function_Ok_registers _ _ _ H) as Hreg.
  destruct (add_function_registers f w Hreg)
    as (off & si & w'' & Hrun & _ & _ & _ & _ & _ & _ & _ & _ & _ & _ & _ & _ & _
        & Hrest).
  rewrite Hrun in H. injection H as _ <-.
  unfold rela_entry_size in Hrest. rewrite Hs, Hnone, Hbits in Hrest.
  destruct (truthy _); [injection Hrest as -> | discriminate]. reflexivity.
Qed.

(** Claim C4 at a 32-bit ELF target: the header of [.rela.text]
    declares entries of 12 bytes, and the one entry the call writes is
    24 bytes long (three 8-byte fields), as is the declared content
    size. *)
Theorem rela_entry_width_on_32_bit_target :
  exists s,
    text_rela_section
      (add_function (Bound example_f2) (example_elf example_abi32)).2 = Some s /\
    elf.entry_size (elf.header s) = 12 /\
    len (elf._content s) = 24 /\
    elf.hdr_content_size (elf.header s) = 24.
Proof. eexists. vm_compute. repeat split. Qed.

(** The two-function program of the specification: the first function
    has no constants, the second one 8-byte constant referenced once. *)
Example two_function_program :
  let w := (add_functions (map Bound [example_f1; example_f2])
              (example_elf example_abi)).2 in
  len (elf.content (text_section w))
    = len (code_content (encode example_f1))
      + len (code_content (encode example_f2)) /\
  (elf.content <$> rodata_section w) = Some (const_content (encode example_f2)) /\
  len (elf.symtab (image w)) = 3 /\
  len (rela_content w) = 24 /\
  decode_int64 Little (drop 16 (rela_content w)) = -4 /\
  elf.sections (image w) = [".text"; ".rodata"; ".rela.text"].
Proof. vm_compute. repeat split. Qed.

End ELFProperties.

(** ** The Mach-O writer *)

(** Claim C9.  Every call of [add_function] on a Mach-O writer returns
    having appended the function's bytes to the text section and one
    symbol to the image: Defined, SectionRelative, External, named by
    the function's name after a single underscore, in the text section,
    with for value the length the text section had before the bytes
    were appended. *)
Theorem macho_function_symbol (w : MachOWriter.t) (f : ABIFunction) :
  exists w' sym,
    MachOWriter.add_function (Bound f) w = (Ok tt, w') /\
    macho.symbols (MachOWriter.image w')
      = macho.symbols (MachOWriter.image w) ++ [sym] /\
    macho.description sym = macho.Defined /\
    macho.type sym = macho.SectionRelative /\
    macho.visibility sym = macho.External /\
    entry (macho.string_table (MachOWriter.image w')) (macho.string_index sym)
      = Some ("_" +:+ name f) /\
    macho.section_index sym
      = macho.index (macho.text_section (MachOWriter.image w')) /\
    macho.value sym
      = len (macho.content (macho.text_section (MachOWriter.image w))) /\
    macho.content (macho.text_section (MachOWriter.image w'))
      = macho.content (macho.text_section (MachOWriter.image w))
        ++ as_bytearray (encode f).
Proof.
  destruct w as [id path prev abi [[ti tc] strs syms] file].
  eexists _, _. split.
  { unfold MachOWriter.add_function, bind, gets, modify, ret, assert_isinstance.
    simpl. reflexivity. }
  simpl. repeat split.
  cbn [macho.string_index].
  replace (len strs) with (len strs + Z.of_nat 0) by lia.
  now rewrite ELFFacts.entry_app.
Qed.

(** ** The assembly writer *)

Lemma assembly_formats_spec (fmt : string) :
  fmt ∈ AssemblyWriter.assembly_formats <->
  fmt = "go" \/ fmt = "nasm" \/ fmt = "masm" \/ fmt = "gas".
Proof.
  unfold AssemblyWriter.assembly_formats.
  rewrite !elem_of_union, !elem_of_singleton. tauto.
Qed.

(** Claim C6.  Constructing an assembly writer succeeds for the four
    formats go, nasm, masm and gas, with the comment prefixes [//], [;],
    [;] and [#], and raises [ValueError] (the ConfigurationError of the
    specification) for every other format.  The constructor is a
    function of its arguments alone: it has no access to the file
    system, and the new writer holds no file. *)
Theorem assembly_writer_dialects
    (linesep version : string) (id : ref) (output_path : string) (input_path : option string) :
  (forall fmt prefix,
     (fmt, prefix) ∈ [("go", "//"); ("nasm", ";"); ("masm", ";"); ("gas", "#")] ->
     exists w,
       AssemblyWriter.__init__ linesep version id output_path fmt input_path = Ok w /\
       AssemblyWriter.assembly_format w = fmt /\
       AssemblyWriter.comment_prefix w = prefix /\
       AssemblyWriter.output_file w = None) /\
  (forall fmt,
     fmt ∉ ["go"; "nasm"; "masm"; "gas"] ->
     AssemblyWriter.__init__ linesep version id output_path fmt input_path
       = Raise (ValueError ("Unknown assembly format: " +:+ fmt))).
Proof.
  split.
  - intros fmt prefix H.
    repeat (apply elem_of_cons in H as [H|H]; [injection H as -> ->|]);
      [| | | |inversion H]; (eexists; split; [reflexivity|]; repeat split).
  - intros fmt H. unfold AssemblyWriter.__init__.
    rewrite bool_decide_eq_true_2; [reflexivity|].
    rewrite assembly_formats_spec. intros Hin. apply H.
    rewrite !elem_of_cons. tauto.
Qed.

Lemma assembly_writer_dialects_witness :
  (exists w,
     AssemblyWriter.__init__ (linesep example_host) (version example_host)
       1%nat "out.s" "go" None = Ok w /\
     AssemblyWriter.comment_prefix w = "//") /\
  AssemblyWriter.__init__ (linesep example_host) (version example_host)
    1%nat "out.s" "fortran" None
    = Raise (ValueError "Unknown assembly format: fortran").
Proof.
  destruct (assembly_writer_dialects (linesep example_host)
              (version example_host) 1%nat "out.s" None) as [Hok Hbad].
  split.
  - destruct (Hok "go" "//") as (w & Hw & _ & Hp & _); [left|]. eauto.
  - apply Hbad. intros H.
    repeat (apply elem_of_cons in H as [H|H]; [discriminate|]). inversion H.
Defined.

(** ** Writers in general *)

Module WriterFacts.

Lemma elf_add_function_frame function w :
  let w' := (ELFWriter.add_function function w).2 in
  ELFWriter.self w' = ELFWriter.self w /\
  ELFWriter.output_path w' = ELFWriter.output_path w /\
  ELFWriter.previous_writer w' = ELFWriter.previous_writer w /\
  ELFWriter.output_file w' = ELFWriter.output_file w.
Proof.
  destruct function as [f|n]; cbv zeta; [|repeat split].
  destruct (ELFFacts.registers_dec f w) as [Hreg|(c & cs & H1 & H2 & H3)].
  - destruct (ELFFacts.add_function_registers f w Hreg)
      as (off & si & w' & -> & _ & _ & _ & _ & _ & _ & _ & _ & _ & H).
    tauto.
  - rewrite (ELFFacts.add_function_unregistered f w c cs H1 H2 H3).
    destruct w. repeat split.
Qed.

Lemma elf_add_function_outcome f w :
  (ELFWriter.add_function (Bound f) w).1 = Ok tt \/
  (exists n, (ELFWriter.add_function (Bound f) w).1 = Raise (KeyError n)) \/
  (ELFWriter.add_function (Bound f) w).1 = Raise (AttributeError "index").
Proof.
  destruct (ELFFacts.registers_dec f w) as [Hreg|(c & cs & H1 & H2 & H3)].
  - destruct (ELFFacts.add_function_registers f w Hreg) as (off & si & w' & -> & _).
    unfold outcome. destruct (unresolved _ _); simpl; eauto.
  - rewrite (ELFFacts.add_function_unregistered f w c cs H1 H2 H3). simpl. eauto.
Qed.

Lemma add_function_unbound host n g w :
  supports_add_function w = true ->
  add_function host (Unbound n) (g, w)
    = (Raise (AssertionError assert_message), (g, w)).
Proof. destruct w; [reflexivity..|discriminate]. Qed.

Lemma add_function_bound host f g w msg :
  supports_add_function w = true ->
  (add_function host (Bound f) (g, w)).1 <> Raise (AssertionError msg).
Proof.
  destruct w as [w|w|w|w|w]; intros _; [| | | |discriminate].
  - destruct w as [? ? ? ? ? ? [file|]]; discriminate.
  - unfold add_function, as_variant, on_self. simpl.
    pose proof (elf_add_function_outcome f w) as H.
    destruct (ELFWriter.add_function (Bound f) w) as [r w']. simpl in *.
    destruct H as [->|[[n ->]| ->]]; discriminate.
  - discriminate.
  - discriminate.
Qed.

End WriterFacts.

(** Claim C8.  On every writer that has an [add_function] (all but the
    null writer), a call with a function that is not an [ABIFunction]
    raises [AssertionError] and leaves the writer, the registry and the
    files as they were; a call with an [ABIFunction] never raises
    [AssertionError]. *)
Theorem unbound_function_is_rejected (host : Host) (g : Globals) (w : Writer) :
  supports_add_function w = true ->
  (forall n,
     add_function host (Unbound n) (g, w)
       = (Raise (AssertionError assert_message), (g, w))) /\
  (forall f msg,
     (add_function host (Bound f) (g, w)).1 <> Raise (AssertionError msg)).
Proof.
  intros H. split.
  - intros n. now apply WriterFacts.add_function_unbound.
  - intros f msg. now apply WriterFacts.add_function_bound.
Qed.

Lemma unbound_function_is_rejected_witness :
  add_function example_host (Unbound "later")
    (example_globals, ELF (example_elf example_abi))
  = (Raise (AssertionError assert_message),
     (example_globals, ELF (example_elf example_abi))).
Proof.
  exact (proj1 (unbound_function_is_rejected example_host example_globals
                  (ELF (example_elf example_abi)) eq_refl) "later").
Defined.

(** ** Scopes *)

Module ScopeFacts.

(** Entering always succeeds: it saves the slot, registers the writer
    (the null writer registers nobody), and opens the output file. *)
Lemma enter_spec g w :
  exists g1 w1,
    enter (g, w) = (Ok tt, (g1, w1)) /\
    active_writer g1 = match w with Null _ => None | _ => Some (self w) end /\
    previous_writer w1 = active_writer g /\
    output_path w1 = output_path w /\
    open_on_file (g1, w1).
Proof.
  unfold open_on_file.
  destruct w as [[]|[]|[]|[]|[]]; eexists _, _; (split; [reflexivity|]); simpl;
    repeat split; try discriminate.
  all: try (injection H as <-; reflexivity).
  all: injection H as <-.
  - rewrite lookup_alter_eq, lookup_insert_eq. eauto.
  - rewrite lookup_insert_eq. eauto.
  - rewrite lookup_insert_eq. eauto.
  - rewrite lookup_insert_eq. eauto.
Qed.

(** Leaving restores the slot first, whatever happens afterwards. *)
Lemma exit_restores host exc s :
  active_writer (exit host exc s).2.1 = previous_writer s.2 /\
  previous_writer (exit host exc s).2.2 = None.
Proof.
  destruct s as [g w]. unfold exit. cbn [snd].
  destruct w as [w|w|w|w|w]; unfold as_variant; cbn [fst].
  - destruct w as [? ? ? ? ? ? [file|]], exc as [e|]; simpl; try tauto.
    unfold AssemblyWriter.__exit__, bind, on_self, on_globals, gets, modify, os_unlink; simpl.
    destruct (fs g !! file_name file); simpl; tauto.
  - destruct w as [? ? ? ? ? ? ? ? [file|]], exc as [e|]; simpl; try tauto.
    unfold ELFWriter.__exit__, bind, on_self, on_globals, gets, modify, os_unlink; simpl.
    destruct (fs g !! file_name file); simpl; tauto.
  - destruct w as [? ? ? ? ? [file|]], exc as [e|]; simpl; try tauto.
    unfold MachOWriter.__exit__, bind, on_self, on_globals, gets, modify, os_unlink; simpl.
    destruct (fs g !! file_name file); simpl; tauto.
  - destruct w as [? ? ? ? ? ? [file|]], exc as [e|]; simpl; try tauto.
    unfold MSCOFFWriter.__exit__, bind, on_self, on_globals, gets, modify, os_unlink; simpl.
    destruct (fs g !! file_name file); simpl; tauto.
  - destruct w; simpl. tauto.
Qed.

(** A call of [add_function] leaves the registry, the writer's file
    object and its path alone, and removes no file. *)
Lemma add_function_frame host function s :
  let s' := (add_function host function s).2 in
  active_writer s'.1 = active_writer s.1 /\
  previous_writer s'.2 = previous_writer s.2 /\
  output_path s'.2 = output_path s.2 /\
  output_file s'.2 = output_file s.2 /\
  forall p, is_Some (fs s.1 !! p) -> is_Some (fs s'.1 !! p).
Proof.
  destruct s as [g w]. cbv zeta. unfold add_function. cbn [snd].
  destruct w as [w|w|w|w|w]; unfold as_variant, on_self; cbn [fst snd].
  - destruct function as [f|n]; [|simpl; tauto].
    destruct w as [? ? ? ? ? ? [file|]]; simpl; repeat split; try tauto.
    intros p Hp. destruct (decide (file_name file = p)) as [<-|Hne].
    + rewrite lookup_alter_eq. destruct Hp as [c ->]. simpl. eauto.
    + now rewrite lookup_alter_ne.
  - pose proof (WriterFacts.elf_add_function_frame function w) as H.
    destruct (ELFWriter.add_function function w) as [r w']. simpl in *.
    destruct H as (_ & -> & -> & ->). tauto.
  - destruct function as [f|n]; destruct w; simpl; tauto.
  - destruct function as [f|n]; destruct w; simpl; tauto.
  - simpl. tauto.
Qed.

Lemma block_frame host statements : forall s,
  let s' := (block host statements s).2 in
  active_writer s'.1 = active_writer s.1 /\
  previous_writer s'.2 = previous_writer s.2 /\
  output_path s'.2 = output_path s.2 /\
  output_file s'.2 = output_file s.2 /\
  forall p, is_Some (fs s.1 !! p) -> is_Some (fs s'.1 !! p).
Proof.
  induction statements as [|[function|e] rest IH]; intros s; cbv zeta.
  - simpl. tauto.
  - cbn [block]. unfold bind.
    pose proof (add_function_frame host function s) as H. cbv zeta in H.
    destruct (add_function host function s) as [[[]|e] s1]; cbn [snd] in *.
    + destruct (IH s1) as (H1 & H2 & H3 & H4 & H5).
      destruct H as (K1 & K2 & K3 & K4 & K5).
      rewrite H1, H2, H3, H4. repeat split; auto.
    + exact H.
  - simpl. tauto.
Qed.

Lemma block_keeps_registry host statements :
  keeps_registry (block host statements).
Proof.
  intros s. destruct (block_frame host statements s) as (H1 & H2 & _).
  split; assumption.
Qed.

Lemma block_open_on_file host statements s :
  open_on_file s -> open_on_file (block host statements s).2.
Proof.
  intros H p Hp.
  destruct (block_frame host statements s) as (_ & _ & H3 & H4 & H5).
  rewrite H3 in Hp. rewrite H4. destruct (H p Hp) as [Hf Hs]. auto.
Qed.

(** Leaving on an exception deletes the file and raises the exception
    again (the null writer has no file and returns). *)
Lemma exit_on_exception host e s :
  open_on_file s ->
  exists s',
    exit host (Some e) s =
      (match output_path s.2 with Some _ => Raise e | None => Ok tt end, s') /\
    forall p, output_path s.2 = Some p -> fs s'.1 !! p = None.
Proof.
  destruct s as [g w]. unfold open_on_file, exit. cbn [fst snd]. intros H.
  destruct w as [w|w|w|w|w]; unfold as_variant; cbn [fst];
    try (destruct (H _ eq_refl) as [Hf [c Hc]]; simpl in Hf).
  - destruct w as [? ? path ? ? ? file]; simpl in *. subst file.
    unfold AssemblyWriter.__exit__, bind, on_self, on_globals, gets, modify, os_unlink; simpl.
    rewrite Hc. simpl. eexists. split; [reflexivity|].
    intros p [= <-]. simpl. apply lookup_delete_eq.
  - destruct w as [? path ? ? ? ? ? ? file]; simpl in *. subst file.
    unfold ELFWriter.__exit__, bind, on_self, on_globals, gets, modify, os_unlink; simpl.
    rewrite Hc. simpl. eexists. split; [reflexivity|].
    intros p [= <-]. simpl. apply lookup_delete_eq.
  - destruct w as [? path ? ? ? file]; simpl in *. subst file.
    unfold MachOWriter.__exit__, bind, on_self, on_globals, gets, modify, os_unlink; simpl.
    rewrite Hc. simpl. eexists. split; [reflexivity|].
    intros p [= <-]. simpl. apply lookup_delete_eq.
  - destruct w as [? path ? ? ? ? file]; simpl in *. subst file.
    unfold MSCOFFWriter.__exit__, bind, on_self, on_globals, gets, modify, os_unlink; simpl.
    rewrite Hc. simpl. eexists. split; [reflexivity|].
    intros p [= <-]. simpl. apply lookup_delete_eq.
  - destruct w. eexists. split; [reflexivity|]. discriminate.
Qed.

(** Leaving without an exception returns and leaves the file in place. *)
Lemma exit_on_return host s :
  open_on_file s ->
  exists s',
    exit host None s = (Ok tt, s') /\
    forall p, output_path s.2 = Some p -> is_Some (fs s'.1 !! p).
Proof.
  destruct s as [g w]. unfold open_on_file, exit. cbn [fst snd]. intros H.
  destruct w as [w|w|w|w|w]; unfold as_variant; cbn [fst];
    try (destruct (H _ eq_refl) as [Hf [c Hc]]; simpl in Hf).
  - destruct w as [? ? path ? ? ? file]; simpl in *. subst file.
    eexists. split; [reflexivity|]. intros p [= <-]. simpl. eauto.
  - destruct w as [? path ? ? ? ? ? ? file]; simpl in *. subst file.
    eexists. split; [reflexivity|]. intros p [= <-]. simpl.
    rewrite lookup_alter_eq, Hc. simpl. eauto.
  - destruct w as [? path ? ? ? file]; simpl in *. subst file.
    eexists. split; [reflexivity|]. intros p [= <-]. simpl.
    rewrite lookup_alter_eq, Hc. simpl. eauto.
  - destruct w as [? path ? ? ? ? file]; simpl in *. subst file.
    eexists. split; [reflexivity|]. intros p [= <-]. simpl.
    rewrite lookup_alter_eq, Hc. simpl. eauto.
  - destruct w. eexists. split; [reflexivity|]. discriminate.
Qed.

End ScopeFacts.

(** Claim C5.  For every writer and every value of the slot, entering
    the scope saves the slot in the writer and registers the writer (the
    null writer registers nobody), and leaving it, on return or on an
    exception, puts the saved value back and clears the writer's copy.
    So whatever was active before [with writer: body] is active after
    it, for every body that itself leaves the registry as it found it,
    as blocks of calls of [add_function] and [raise] do. *)
Theorem scope_restores_active_writer
    (host : Host) (g : Globals) (w : Writer) (body : M (Globals * Writer) unit) :
  keeps_registry body ->
  active_writer (enter (g, w)).2.1
    = match w with Null _ => None | _ => Some (self w) end /\
  previous_writer (enter (g, w)).2.2 = active_writer g /\
  active_writer (scope host body (g, w)).2.1 = active_writer g /\
  previous_writer (scope host body (g, w)).2.2 = None.
Proof.
  intros Hbody.
  destruct (ScopeFacts.enter_spec g w) as (g1 & w1 & He & Ha & Hp & _).
  rewrite He. cbn [fst snd]. split; [exact Ha|]. split; [exact Hp|].
  unfold scope, with_statement. rewrite He.
  destruct (Hbody (g1, w1)) as [Hb1 Hb2]. cbn [fst snd] in Hb1, Hb2.
  destruct (body (g1, w1)) as [[[]|e] s2]; cbn [fst snd] in *.
  - destruct (ScopeFacts.exit_restores host None s2) as [H1 H2].
    rewrite H1, H2, Hb2, Hp. split; reflexivity.
  - destruct (ScopeFacts.exit_restores host (Some e) s2) as [H1 H2].
    destruct (exit host (Some e) s2) as [[[]|e'] s3]; cbn [fst snd] in *;
      rewrite H1, H2, Hb2, Hp; split; reflexivity.
Qed.

Lemma scope_restores_active_writer_witness :
  active_writer
    (scope example_host
       (block example_host
          [call_add_function (Bound example_f1);
           raise_statement (Exception "stop")])
       ((enter (example_globals, ELF (example_elf example_abi))).2.1,
        Null (NullWriter.__init__ 2%nat))).2.1
  = Some 1%nat.
Proof.
  exact (proj1 (proj2 (proj2
    (scope_restores_active_writer example_host
       (enter (example_globals, ELF (example_elf example_abi))).2.1
       (Null (NullWriter.__init__ 2%nat)) _
       (ScopeFacts.block_keeps_registry example_host _))))).
Defined.

(** Claim C2.  For every writer and every block of calls of
    [add_function] and [raise] run in its scope: if the block raises,
    the [with] statement raises the same exception and no file is left
    at the writer's output path, whatever was there before; if the block
    returns, the statement returns and a file is at the output path. *)
Theorem scope_leaves_file_only_on_return
    (host : Host) (g : Globals) (w : Writer) (statements : list statement)
    (r : result unit) (s2 : Globals * Writer) :
  block host statements (enter (g, w)).2 = (r, s2) ->
  exists s3,
    scope host (block host statements) (g, w) = (r, s3) /\
    forall p, output_path w = Some p ->
      match r with
      | Raise _ => fs s3.1 !! p = None
      | Ok _ => is_Some (fs s3.1 !! p)
      end.
Proof.
  intros Hblock.
  destruct (ScopeFacts.enter_spec g w) as (g1 & w1 & He & _ & _ & Hpath & Hopen).
  rewrite He in Hblock. cbn [snd] in Hblock.
  pose proof (ScopeFacts.block_open_on_file host statements _ Hopen) as Hopen2.
  pose proof (ScopeFacts.block_frame host statements (g1, w1)) as (_ & _ & Hp2 & _).
  rewrite Hblock in Hopen2, Hp2. cbn [fst snd] in Hopen2, Hp2.
  unfold scope, with_statement. rewrite He, Hblock.
  destruct r as [[]|e].
  - destruct (ScopeFacts.exit_on_return host s2 Hopen2) as (s3 & -> & Hfs).
    exists s3. split; [reflexivity|]. intros p Hp.
    apply Hfs. now rewrite Hp2, Hpath.
  - destruct (ScopeFacts.exit_on_exception host e s2 Hopen2) as (s3 & -> & Hfs).
    exists s3. split; [now destruct (output_path s2.2)|].
    intros p Hp. apply Hfs. now rewrite Hp2, Hpath.
Qed.

Lemma scope_leaves_file_only_on_return_witness :
  exists s3,
    scope example_host
      (block example_host
         [call_add_function (Bound example_f1);
          call_add_function (Unbound "later")])
      (example_globals, ELF (example_elf example_abi))
    = (Raise (AssertionError assert_message), s3) /\
    fs s3.1 !! "out.o" = None.
Proof.
  destruct (scope_leaves_file_only_on_return example_host example_globals
              (ELF (example_elf example_abi))
              [call_add_function (Bound example_f1);
               call_add_function (Unbound "later")]
              (Raise (AssertionError assert_message))
              (block example_host
                 [call_add_function (Bound example_f1);
                  call_add_function (Unbound "later")]
                 (enter (example_globals, ELF (example_elf example_abi))).2).2)
    as (s3 & Hrun & Hfs).
  - vm_compute. reflexivity.
  - exists s3. split; [exact Hrun | now apply Hfs].
Defined.

(** * Further properties of the writers *)

(** ** The ELF writer: constants, relocations and sections *)

Module ELFLayout.
Import ELFWriter ELFFacts EncoderFacts.

Lemma const_symbol_map_last cs : forall index m n i,
  const_symbol_map index cs m !! n = Some i ->
  ((n ∉ map Constant.name cs) /\ m !! n = Some i) \/
  exists k c, cs !! k = Some c /\ Constant.name c = n /\ i = index + Z.of_nat k /\
    forall k' c', (k < k')%nat -> cs !! k' = Some c' -> Constant.name c' <> n.
Proof.
  induction cs as [|c cs IH]; intros index m n i H.
  - left. split; [apply not_elem_of_nil | exact H].
  - cbn [const_symbol_map] in H.
    apply IH in H as [[Hn H]|(k & c' & Hk & Hc & -> & Hlast)].
    + destruct (decide (Constant.name c = n)) as [E|E].
      * right. exists 0%nat, c. subst n. rewrite lookup_insert_eq in H.
        repeat split; [injection H; lia|].
        intros [|k'] c' Hlt Hk' Heq; [lia|]. simpl in Hk'. apply Hn.
        rewrite <- Heq. apply list_elem_of_fmap. exists c'. split; [reflexivity|].
        eapply list_elem_of_lookup_2. exact Hk'.
      * left. rewrite lookup_insert_ne in H by exact E. split; [|exact H].
        simpl. intros [?|?]%elem_of_cons; [congruence | contradiction].
    + right. exists (S k), c'. repeat split; [exact Hk | exact Hc | lia |].
      intros [|k'] c'' Hlt Hk'; [lia|]. simpl in Hk'. eapply Hlast; [|exact Hk']. lia.
Qed.

(** A call that returns: the whole effect. *)
Lemma add_function_returns f w w' :
  add_function (Bound f) w = (Ok tt, w') ->
  registers f w /\ completes f w = true /\
  map fst (emitted f w) = code_relocations (encode f).
Proof.
  intros H. pose proof (add_function_Ok_registers _ _ _ H) as Hreg.
  split; [exact Hreg|].
  destruct (add_function_effect f w Hreg) as (off & si & w'' & Hrun & _).
  rewrite Hrun in H. injection H as Hout _.
  split; [now apply completes_outcome|].
  unfold outcome in Hout. apply unresolved_None. now destruct (unresolved _ _).
Qed.

(** Property X1.  A call of [add_function] that returns appends the
    function's constant data to [.rodata] and gives the constants of the
    function, in order, the next entries of the symbol table and of the
    string table: the symbol of a constant is Local and DataObject, lies
    in the [.rodata] section, has the constant's size and name, and has
    for value the constant's offset counted from where this function's
    data starts in [.rodata] (from zero when the function has no
    constant data). *)
Theorem constant_symbols_point_into_rodata
    (w : ELFWriter.t) (f : ABIFunction) (w' : ELFWriter.t) :
  add_function (Bound f) w = (Ok tt, w') ->
  rodata_content w' = rodata_content w ++ const_content (encode f) /\
  forall k c, const_symbols (encode f) !! k = Some c ->
    exists s',
      rodata_section w' = Some s' /\
      entry (elf.symtab (image w')) (len (elf.symtab (image w)) + Z.of_nat k)
        = Some {| elf.name_index := len (elf.strtab (image w)) + Z.of_nat k;
                  elf.value :=
                    (if truthy (const_content (encode f))
                     then len (rodata_content w) else 0) + Constant.offset c;
                  elf.content_size := Constant.size c;
                  elf.section_index := elf.index s';
                  elf.binding := elf.Local;
                  elf.type := elf.DataObject |} /\
      entry (elf.strtab (image w')) (len (elf.strtab (image w)) + Z.of_nat k)
        = Some (Constant.name c).
Proof.
  intros H. destruct (add_function_returns _ _ _ H) as (Hreg & _ & _).
  destruct (add_function_effect f w Hreg)
    as (off & si & w'' & Hrun & _ & _ & _ & _ & Hsym & Hstr & _ & _ & _ & _ & _
        & _ & _ & _ & Hrod & Hoff & Hsi & _).
  rewrite Hrun in H. injection H as _ <-.
  split.
  - unfold rodata_content at 1. rewrite Hrod.
    destruct (const_content (encode f)); cbn [truthy]; [|reflexivity].
    unfold rodata_content. now rewrite app_nil_r.
  - intros k c Hk.
    destruct Hsi as (s' & Hs' & ->); [intros E; rewrite E in Hk; discriminate|].
    exists s'. split; [exact Hs'|].
    pose proof (lookup_lt_Some _ _ _ Hk) as Hlt.
    rewrite Hsym, Hstr, !entry_app.
    rewrite lookup_app_l by (rewrite const_symbol_entries_length; lia).
    rewrite (const_symbol_entries_lookup _ _ _ _ _ _ Hk), <- Hoff.
    split; [reflexivity|].
    rewrite lookup_app_l by (rewrite length_map; lia).
    now rewrite list_lookup_fmap, Hk.
Qed.

(** Property X2.  A call that raises is not undone.  The exception is
    the [AttributeError] of line 130 or the [KeyError] of line 152; the
    function's code stays in [.text] although no function symbol was
    created for it; and the next function added successfully gets a
    symbol whose value lies past the orphaned code. *)
Theorem failed_call_keeps_its_code
    (w : ELFWriter.t) (f : ABIFunction) (e : exn) (w' : ELFWriter.t) :
  add_function (Bound f) w = (Raise e, w') ->
  elf.content (text_section w')
    = elf.content (text_section w) ++ code_content (encode f) /\
  function_symbols (elf.symtab (image w'))
    = function_symbols (elf.symtab (image w)) /\
  (e = AttributeError "index" \/ exists n, e = KeyError n) /\
  forall g w'',
    add_function (Bound g) w' = (Ok tt, w'') ->
    exists sym,
      last (elf.symtab (image w'')) = Some sym /\
      elf.type sym = elf.Function /\
      elf.value sym
        = len (elf.content (text_section w)) + len (code_content (encode f)).
Proof.
  intros H.
  assert (Hmain :
    elf.content (text_section w')
      = elf.content (text_section w) ++ code_content (encode f) /\
    function_symbols (elf.symtab (image w'))
      = function_symbols (elf.symtab (image w)) /\
    (e = AttributeError "index" \/ exists n, e = KeyError n)).
  { destruct (registers_dec f w) as [Hreg|(c & cs & H1 & H2 & H3)].
    - destruct (add_function_effect f w Hreg)
        as (off & si & w0 & Hrun & Ht & _ & _ & _ & Hsym & _).
      rewrite Hrun in H. injection H as Hout <-.
      unfold outcome in Hout. unfold completes in Hsym.
      destruct (unresolved _ _) as [n|]; [|discriminate].
      injection Hout as <-. rewrite Ht, Hsym. simpl.
      rewrite !function_symbols_app, const_symbol_entries_not_function.
      simpl. rewrite !app_nil_r. eauto.
    - rewrite (add_function_unregistered f w c cs H1 H2 H3) in H.
      injection H as <- <-. destruct w as [? ? ? ? [] [] ? ? ?]. simpl. eauto. }
  destruct Hmain as (Ht & Hfs & He). repeat split; try assumption.
  intros g w'' Hg. apply add_function_Ok in Hg as (_ & _ & (off & si & Hsym) & _).
  exists (function_symbol_of g w'). rewrite Hsym, app_assoc, last_snoc.
  split; [reflexivity|]. split; [reflexivity|].
  simpl. now rewrite Ht, len_app.
Qed.

(** Property X3.  When a call returns, every code relocation of the
    function has its entry in [.rela.text], in order, and the symbol
    index packed into the entry is that of the last constant symbol of
    the call that carries the relocation's name: when two constants of a
    function share a name, the dict of line 134 keeps the later one. *)
Theorem repeated_constant_name_resolves_to_last
    (w : ELFWriter.t) (f : ABIFunction) (w' : ELFWriter.t) :
  add_function (Bound f) w = (Ok tt, w') ->
  exists relocations : list (Relocation.t * Z),
    map fst relocations = code_relocations (encode f) /\
    rela_content w' =
      rela_content w ++ concat (map (entry_bytes (encoder_of w)) relocations) /\
    forall p, p ∈ relocations ->
      exists k c,
        const_symbols (encode f) !! k = Some c /\
        Constant.name c = Relocation.symbol p.1 /\
        p.2 = len (elf.symtab (image w)) + Z.of_nat k /\
        forall k' c', (k < k')%nat ->
          const_symbols (encode f) !! k' = Some c' ->
          Constant.name c' <> Relocation.symbol p.1.
Proof.
  intros H. destruct (add_function_returns _ _ _ H) as (Hreg & _ & Hall).
  destruct (add_function_effect f w Hreg)
    as (off & si & w0 & Hrun & _ & _ & Hrc & _).
  rewrite Hrun in H. injection H as _ <-.
  exists (emitted f w). split; [exact Hall|]. split; [exact Hrc|].
  intros p Hp. apply resolved_lookup in Hp.
  apply const_symbol_map_last in Hp as [[_ Hp]|Hp]; [|exact Hp].
  rewrite lookup_empty in Hp. discriminate.
Qed.




Lemma entry_app_l {A} (l k : list A) i x :
  entry l i = Some x -> entry (l ++ k) i = Some x.
Proof.
  unfold entry. destruct (Z.ltb i 0); [discriminate|].
  apply lookup_app_l_Some.
Qed.

Lemma const_symbol_entries_elem cs : forall ni off si sym,
  sym ∈ const_symbol_entries ni off si cs ->
  elf.type sym = elf.DataObject /\ elf.section_index sym = si /\ cs <> [].
Proof.
  induction cs as [|c cs IH]; intros ni off si sym H; [inversion H|].
  simpl in H. apply elem_of_cons in H as [->|H]; [now repeat split|].
  destruct (IH _ _ _ _ H) as (H1 & H2 & _). now repeat split.
Qed.

Lemma add_function_bound_sections f w w' :
  add_function (Bound f) w = (Ok tt, w') ->
  symbols_in_bound_sections w -> symbols_in_bound_sections w'.
Proof.
  intros H (Htext & Hro & Hsyms).
  destruct (add_function_returns _ _ _ H) as (Hreg & Hcomplete & _).
  destruct (add_function_effect f w Hreg)
    as (off & si & w0 & Hrun & Ht & _ & _ & _ & Hsym & _ & Hsec & _ & _ & _ & _
        & _ & _ & _ & Hrod & _ & Hsi & _).
  rewrite Hrun in H. injection H as _ <-. rewrite Hcomplete in Hsym.
  assert (Hkeep : forall s, rodata_section w = Some s ->
            exists s', rodata_section w0 = Some s' /\ elf.index s' = elf.index s).
  { intros s Hs. rewrite Hrod, Hs. destruct (truthy _); eauto. }
  unfold symbols_in_bound_sections. rewrite Hsec, Ht. cbn [elf.append elf.index].
  split; [now apply entry_app_l|]. split.
  - intros s' Hs'. rewrite Hrod in Hs'.
    destruct (const_content (encode f)) as [|b cc]; cbn [truthy] in Hs'.
    + apply entry_app_l. now apply Hro.
    + injection Hs' as <-. cbn [elf.index].
      destruct (rodata_section w) as [s|] eqn:E.
      * apply entry_app_l. now apply Hro.
      * unfold newly_bound at 1. cbn [truthy].
        replace (len (elf.sections (image w)))
          with (len (elf.sections (image w)) + Z.of_nat 0) by lia.
        now rewrite entry_app.
  - intros sym Hin. rewrite Hsym in Hin.
    apply elem_of_app in Hin as [Hin|Hin];
      [|apply elem_of_app in Hin as [Hin|Hin]].
    + destruct (Hsyms sym Hin) as [?|(Hty & s & Hs & Hidx)]; [now left|].
      right. split; [exact Hty|].
      destruct (Hkeep s Hs) as (s' & Hs' & Hi). exists s'. split; [exact Hs'|].
      congruence.
    + apply const_symbol_entries_elem in Hin as (Hty & Hidx & Hne).
      right. split; [exact Hty|].
      destruct (Hsi Hne) as (s' & Hs' & ->). eauto.
    + apply list_elem_of_singleton in Hin. subst sym. now left.
Qed.

(** Property X5.  After calls that all return on a fresh writer, every
    symbol of the symbol table is either a Function symbol whose section
    index is bound to the name [.text] in the image, or a DataObject
    symbol whose section index is bound to the name [.rodata]. *)
Theorem symbols_refer_to_bound_sections
    (id : ref) (path : string) (abi : ABI) (input_path : option string)
    (fs : list ABIFunction) (w' : ELFWriter.t) (sym : elf.Symbol) :
  add_functions (map Bound fs) (__init__ id path abi input_path) = (Ok tt, w') ->
  sym ∈ elf.symtab (image w') ->
  (elf.type sym = elf.Function /\
   entry (elf.sections (image w')) (elf.section_index sym) = Some ".text") \/
  (elf.type sym = elf.DataObject /\
   entry (elf.sections (image w')) (elf.section_index sym) = Some ".rodata").
Proof.
  intros H Hin.
  assert (Hgen : forall functions w w',
    add_functions (map Bound functions) w = (Ok tt, w') ->
    symbols_in_bound_sections w -> symbols_in_bound_sections w').
  { clear. induction functions as [|f functions IH]; intros w w' H Hw.
    - now injection H as <-.
    - cbn [map] in H. apply add_functions_cons in H as (w1 & H1 & H).
      eapply IH; [exact H|]. eapply add_function_bound_sections; eassumption. }
  destruct (Hgen fs _ _ H) as (Htext & Hro & Hsyms).
  { split; [reflexivity|]. split; [discriminate|]. intros ? Hx. inversion Hx. }
  destruct (Hsyms sym Hin) as [[Hty Hidx]|(Hty & s & Hs & Hidx)].
  - left. split; [exact Hty|]. now rewrite Hidx.
  - right. split; [exact Hty|]. rewrite Hidx. now apply Hro.
Qed.


Lemma constant_symbols_point_into_rodata_witness :
  rodata_content (add_function (Bound example_f2) (example_elf example_abi)).2
  = const_content (encode example_f2).
Proof.
  destruct (constant_symbols_point_into_rodata (example_elf example_abi)
              example_f2
              (add_function (Bound example_f2) (example_elf example_abi)).2)
    as [H _]; [vm_compute; reflexivity|exact H].
Defined.

Lemma repeated_constant_name_resolves_to_last_witness :
  exists relocations : list (Relocation.t * Z),
    map fst relocations = [Relocation.mk 0 "c"] /\
    forall p, p ∈ relocations -> p.2 = 1.
Proof.
  destruct (repeated_constant_name_resolves_to_last (example_elf example_abi)
              example_repeated
              (add_function (Bound example_repeated) (example_elf example_abi)).2)
    as (relocations & Hfst & _ & Hall); [vm_compute; reflexivity|].
  exists relocations. split; [exact Hfst|].
  intros p Hp. destruct (Hall p Hp) as (k & c & Hk & Hc & Hi & Hlast).
  destruct k as [|[|k]]; [|exact Hi|discriminate Hk].
  injection Hk as <-. exfalso.
  apply (Hlast 1%nat (Constant.mk "c" 4 4)); [lia|reflexivity|exact Hc].
Defined.

Lemma failed_call_keeps_its_code_witness :
  elf.content
    (text_section
       (add_function (Bound example_dangling) (example_elf example_abi)).2)
  = [xc3].
Proof.
  destruct (failed_call_keeps_its_code (example_elf example_abi)
              example_dangling (KeyError "one")
              (add_function (Bound example_dangling) (example_elf example_abi)).2)
    as [H _]; [vm_compute; reflexivity|exact H].
Defined.


Lemma symbols_refer_to_bound_sections_witness :
  exists sym,
    last (elf.symtab
            (image (add_functions (map Bound [example_f1; example_f2])
                      (example_elf example_abi)).2)) = Some sym /\
    entry (elf.sections
             (image (add_functions (map Bound [example_f1; example_f2])
                       (example_elf example_abi)).2))
      (elf.section_index sym) = Some ".text".
Proof.
  eexists. split; [vm_compute; reflexivity|].
  lazymatch goal with
  | |- entry _ (elf.section_index ?sym) = _ =>
      destruct (symbols_refer_to_bound_sections 1%nat "out.o" example_abi None
                  [example_f1; example_f2]
                  (add_functions (map Bound [example_f1; example_f2])
                     (example_elf example_abi)).2
                  sym)
        as [[_ H]|[Hty _]];
        [vm_compute; reflexivity
        |apply list_elem_of_lookup; exists 2%nat; vm_compute; reflexivity
        |exact H|discriminate Hty]
  end.
Defined.

Lemma info_unpacks i :
  0 <= i ->
  Z.shiftr (Z.lor (Z.shiftl i 32) R_X86_64_PC32) 32 = i /\
  Z.land (Z.lor (Z.shiftl i 32) R_X86_64_PC32) 0xFFFFFFFF = R_X86_64_PC32.
Proof.
  intros Hi. unfold R_X86_64_PC32. split.
  - rewrite Z.shiftr_lor, Z.shiftr_shiftl_l by lia.
    now rewrite Z.sub_diag, Z.shiftl_0_r, Z.lor_0_r.
  - rewrite Z.land_lor_distr_l.
    replace (Z.land (Z.shiftl i 32) 0xFFFFFFFF) with 0; [reflexivity|].
    symmetry. apply Z.bits_inj'. intros n Hn.
    rewrite Z.land_spec, Z.bits_0, Z.shiftl_spec by lia.
    destruct (Z.lt_ge_cases n 32) as [Hlt|Hge].
    + now rewrite Z.testbit_neg_r by lia.
    + change 0xFFFFFFFF with (Z.ones 32).
      rewrite Z.ones_spec_high by lia. apply andb_false_r.
Qed.

(** Property X6.  A relocation entry parses back, in either byte order:
    it is 24 bytes long; its first eight bytes read as the offset; the
    upper 32 bits of the next eight are the symbol index and the lower
    32 bits the relocation type [R_X86_64_PC32]; and the last eight read
    as the signed 64-bit integer [-4]; provided that the offset fits 64
    bits and the symbol index 32 bits. *)
Theorem relocation_entry_round_trip
    (e : Endianness) (b : Z) (offset symbol_index : Z) :
  0 <= offset < 2 ^ 64 ->
  0 <= symbol_index < 2 ^ 32 ->
  let bytes :=
    relocation_entry (Encoder.mk e b) offset
      (Z.lor (Z.shiftl symbol_index 32) R_X86_64_PC32) (-4) in
  let info := decode_uint64 e (take 8 (drop 8 bytes)) in
  len bytes = 24 /\
  decode_uint64 e (take 8 bytes) = offset /\
  Z.shiftr info 32 = symbol_index /\
  Z.land info 0xFFFFFFFF = R_X86_64_PC32 /\
  decode_int64 e (drop 16 bytes) = -4.
Proof.
  intros Ho Hi. cbv zeta.
  destruct (ELFProperties.relocation_entry_decodes e b
              (Relocation.mk offset "") symbol_index Ho Hi) as (H1 & H2 & H3).
  change (entry_bytes (Encoder.mk e b) (Relocation.mk offset "", symbol_index))
    with (relocation_entry (Encoder.mk e b) offset
            (Z.lor (Z.shiftl symbol_index 32) R_X86_64_PC32) (-4)) in *.
  rewrite H1, H2, H3.
  destruct (info_unpacks symbol_index) as [H4 H5]; [lia|].
  repeat split; try assumption.
  now destruct e.
Qed.

Lemma relocation_entry_round_trip_witness :
  Z.shiftr
    (decode_uint64 Big
       (take 8 (drop 8
          (relocation_entry (Encoder.mk Big 64) 7
             (Z.lor (Z.shiftl 5 32) R_X86_64_PC32) (-4))))) 32 = 5.
Proof.
  destruct (relocation_entry_round_trip Big 64 7 5) as (_ & _ & H & _);
    [lia|lia|exact H].
Defined.

End ELFLayout.

(** ** Sequences of calls on the other writers *)

Module LayoutFacts.

Lemma blob_of_snoc fs f :
  blob_of (fs ++ [f]) = blob_of fs ++ as_bytearray (encode f).
Proof.
  unfold blob_of. rewrite map_app, concat_app. simpl. now rewrite app_nil_r.
Qed.

Lemma add_all_snoc fs f :
  add_all (fs ++ [f]) = add_all fs ++ [call_add_function (Bound f)].
Proof. unfold add_all. now rewrite map_app. Qed.

Lemma block_app host l : forall k s s1,
  block host l s = (Ok tt, s1) ->
  block host (l ++ k) s = block host k s1.
Proof.
  induction l as [|[function|e] l IH]; intros k s s1 H.
  - now injection H as <-.
  - cbn [app block] in *. unfold bind in *.
    destruct (add_function host function s) as [[[]|e] s0]; [|discriminate].
    now apply IH.
  - discriminate.
Qed.

Lemma mscoff_call host g f w :
  add_function host (Bound f) (g, MSCOFF w)
  = (Ok tt,
     (g, MSCOFF
          (MSCOFFWriter.set_image
             (mscoff.add_symbol
                (mscoff_function_symbol
                   (len (mscoff.content (MSCOFFWriter.text_section w)))
                   (mscoff.index (MSCOFFWriter.text_section w)))
                (name f) (MSCOFFWriter.image w))
             (MSCOFFWriter.set_text_section
                (mscoff.write (as_bytearray (encode f))
                   (MSCOFFWriter.text_section w)) w)))).
Proof. destruct w. reflexivity. Qed.

Lemma macho_call host g f w :
  add_function host (Bound f) (g, MachO w)
  = (Ok tt,
     (g, MachO
          (MachOWriter.set_image
             {| macho.text_section :=
                  macho.append (as_bytearray (encode f))
                    (macho.text_section (MachOWriter.image w));
                macho.string_table :=
                  macho.string_table (MachOWriter.image w) ++ ["_" +:+ name f];
                macho.symbols :=
                  macho.symbols (MachOWriter.image w) ++
                  [ {| macho.description := macho.Defined;
                       macho.type := macho.SectionRelative;
                       macho.visibility := macho.External;
                       macho.string_index :=
                         len (macho.string_table (MachOWriter.image w));
                       macho.section_index :=
                         macho.index (macho.text_section (MachOWriter.image w));
                       macho.value :=
                         len (macho.content
                                (macho.text_section (MachOWriter.image w))) |} ]
             |} w))).
Proof. destruct w as [? ? ? ? [[] ? ?] ?]. reflexivity. Qed.

Lemma assembly_call host g f w file :
  AssemblyWriter.output_file w = Some file ->
  add_function host (Bound f) (g, Assembly w)
  = (Ok tt,
     (set_fs (alter (fun c => c ++ String.list_byte_of_string
                                    (format f (AssemblyWriter.assembly_format w)
                                     +:+ linesep host))
                (file_name file) (fs g)) g,
      Assembly w)).
Proof. destruct w. cbn. now intros ->. Qed.

Lemma lookup_snoc_Some {A} (l : list A) (x y : A) (k : nat) :
  (l ++ [x]) !! k = Some y ->
  (l !! k = Some y /\ (k < length l)%nat) \/ (k = length l /\ y = x).
Proof.
  intros H. destruct (decide (k < length l)%nat) as [Hlt|Hge].
  - rewrite lookup_app_l in H by exact Hlt. auto.
  - rewrite lookup_app_r in H by lia.
    destruct (k - length l)%nat as [|n] eqn:E; [|now destruct n].
    injection H as <-. right. split; [lia|reflexivity].
Qed.

End LayoutFacts.

Module MSCOFFProperties.
Import MSCOFFWriter LayoutFacts.

(** Property X7.  Any sequence of [add_function] calls on an MS-COFF writer
    returns; the text section has grown by the functions' bytes laid end
    to end, and one symbol per function has been added after the earlier
    ones, in call order: an external function symbol of the text
    section, named by the function's name as it is, whose value is the
    length the text section had when the call was made. *)
Theorem mscoff_symbols_follow_text_layout
    (host : Host) (g : Globals) (w : MSCOFFWriter.t) (fs : list ABIFunction) :
  exists w' added,
    block host (add_all fs) (g, MSCOFF w) = (Ok tt, (g, MSCOFF w')) /\
    mscoff.content (text_section w')
      = mscoff.content (text_section w) ++ blob_of fs /\
    mscoff.index (text_section w') = mscoff.index (text_section w) /\
    mscoff.sections (image w') = mscoff.sections (image w) /\
    mscoff.symbols (image w') = mscoff.symbols (image w) ++ added /\
    length added = length fs /\
    forall k f, fs !! k = Some f ->
      added !! k
      = Some (mscoff_function_symbol
                (len (mscoff.content (text_section w))
                 + len (blob_of (take k fs)))
                (mscoff.index (text_section w)),
              name f).
Proof.
  induction fs as [|f fs IH] using rev_ind.
  - exists w, []. cbn. rewrite !app_nil_r. repeat split. intros k f H.
    inversion H.
  - destruct IH as (w1 & added & Hrun & Hc & Hi & Hs & Hsym & Hlen & Hk).
    rewrite add_all_snoc, (block_app _ _ _ _ _ Hrun). cbn [block].
    unfold bind. rewrite mscoff_call. cbn [ret].
    eexists _, (added ++ [_]). split; [reflexivity|].
    destruct w1 as [? ? ? ? [secs syms] [ti tc] ?]. cbn in *.
    subst. rewrite blob_of_snoc, !length_app, <- !app_assoc. cbn.
    repeat split; [lia|].
    intros k f' H. apply lookup_snoc_Some in H as [[H Hlt]|[-> ->]].
    + rewrite lookup_app_l by lia. rewrite take_app_le by lia. now apply Hk.
    + rewrite lookup_app_r by lia. rewrite Hlen, Nat.sub_diag.
      rewrite take_app_length. cbn. now rewrite len_app.
Qed.

End MSCOFFProperties.

Module MachOProperties.
Import MachOWriter LayoutFacts.

Lemma macho_calls host g fs : forall w,
  exists img,
    block host (add_all fs) (g, MachO w) = (Ok tt, (g, MachO (set_image img w))) /\
    macho.content (macho.text_section img)
      = macho.content (macho.text_section (image w)) ++ blob_of fs /\
    macho.index (macho.text_section img)
      = macho.index (macho.text_section (image w)) /\
    macho.string_table img
      = macho.string_table (image w) ++ map (fun f => "_" +:+ name f) fs /\
    exists added,
      macho.symbols img = macho.symbols (image w) ++ added /\
      length added = length fs /\
      forall k f, fs !! k = Some f ->
        added !! k
        = Some {| macho.description := macho.Defined;
                  macho.type := macho.SectionRelative;
                  macho.visibility := macho.External;
                  macho.string_index :=
                    len (macho.string_table (image w)) + Z.of_nat k;
                  macho.section_index :=
                    macho.index (macho.text_section (image w));
                  macho.value :=
                    len (macho.content (macho.text_section (image w)))
                    + len (blob_of (take k fs)) |}.
Proof.
  intros w. induction fs as [|f fs IH] using rev_ind.
  - exists (image w). cbn. rewrite !app_nil_r. split; [now destruct w|].
    repeat split. exists []. rewrite app_nil_r. repeat split.
    intros k f H. inversion H.
  - destruct IH as (img & Hrun & Hc & Hi & Hs & added & Hsym & Hlen & Hk).
    rewrite add_all_snoc, (block_app _ _ _ _ _ Hrun). cbn [block].
    unfold bind. rewrite macho_call. cbn [ret].
    eexists. split; [destruct w; reflexivity|].
    destruct w as [? ? ? ? [[ti tc] strs syms] ?], img as [[ti' tc'] strs' syms'].
    cbn in *. subst.
    rewrite blob_of_snoc, map_app, <- !app_assoc. cbn. repeat split.
    eexists (added ++ [_]). rewrite !length_app. cbn.
    split; [reflexivity|]. split; [lia|].
    intros k f' H. apply lookup_snoc_Some in H as [[H Hlt]|[-> ->]].
    + rewrite lookup_app_l by lia. rewrite take_app_le by lia.
      now apply (Hk k f').
    + rewrite lookup_app_r by lia. rewrite Hlen, Nat.sub_diag.
      rewrite take_app_length. cbn.
      rewrite !len_app, ELFFacts.len_map. reflexivity.
Qed.

(** Property X8.  [with MachOWriter(path, abi) as writer:] followed by any
    sequence of [add_function] calls returns, restores the registry, and
    leaves at [path] (whatever was there) the serialisation of an image
    whose text section holds the functions' bytes laid end to end, whose
    string table holds ["_" + name] for each function in call order, and
    whose [k]-th symbol is Defined, SectionRelative and External, named
    by the [k]-th string, in the text section, at the offset where the
    [k]-th function starts. *)
Theorem macho_scope_writes_image
    (host : Host) (g : Globals) (id : ref) (path : string) (abi : ABI)
    (functions : list ABIFunction) :
  exists img,
    scope host (block host (add_all functions)) (g, MachO (__init__ id path abi))
    = (Ok tt,
       (set_fs (<[path := macho_as_bytearray host img]> (fs g)) g,
        MachO (set_image img (__init__ id path abi)))) /\
    macho.content (macho.text_section img) = blob_of functions /\
    macho.string_table img = map (fun f => "_" +:+ name f) functions /\
    length (macho.symbols img) = length functions /\
    forall k f, functions !! k = Some f ->
      macho.symbols img !! k
      = Some {| macho.description := macho.Defined;
                macho.type := macho.SectionRelative;
                macho.visibility := macho.External;
                macho.string_index := Z.of_nat k;
                macho.section_index := macho.index (macho.text_section img);
                macho.value := len (blob_of (take k functions)) |}.
Proof.
  set (w1 := mk id path (active_writer g) abi (macho.Image_new abi)
               (Some (mkFile path))).
  set (g1 := mkGlobals (Some id) (<[path := []]> (fs g))).
  destruct (macho_calls host g1 functions w1)
    as (img & Hrun & Hc & Hi & Hs & added & Hsym & Hlen & Hk).
  exists img. split.
  - unfold scope, with_statement.
    assert (Henter : enter (g, MachO (__init__ id path abi))
                     = (Ok tt, (g1, MachO w1))) by reflexivity.
    rewrite Henter, Hrun. cbn. unfold set_fs. cbn.
    now rewrite alter_insert_eq.
  - cbn in *. rewrite Hc, Hs, Hsym, Hlen, Hi. repeat split.
    intros k f H. rewrite (Hk k f H). reflexivity.
Qed.

End MachOProperties.

Module AssemblyProperties.
Import AssemblyWriter LayoutFacts.

Lemma append_nil_r (s : string) : s +:+ "" = s.
Proof.
  induction s as [|a s IH]; [reflexivity|].
  change (String a (s +:+ "") = String a s). now rewrite IH.
Qed.

Lemma header_join (sep h : string) :
  String.concat sep [h; ""; ""] = h +:+ sep +:+ sep.
Proof.
  change (h +:+ sep +:+ (sep +:+ "") = h +:+ sep +:+ sep).
  now rewrite append_nil_r.
Qed.

Lemma assembly_calls host p functions : forall g w c m,
  output_file w = Some (mkFile p) ->
  fs g = <[p := c]> m ->
  block host (add_all functions) (g, Assembly w)
  = (Ok tt,
     (set_fs (<[p := c ++ listing host (assembly_format w) functions]> m) g,
      Assembly w)).
Proof.
  induction functions as [|f functions IH]; intros g w c m Hfile Hfs.
  - cbn. rewrite app_nil_r, <- Hfs. now destruct g.
  - cbn [add_all map block]. unfold bind.
    rewrite (assembly_call host g f w _ Hfile), Hfs, alter_insert_eq.
    change (map _ functions) with (add_all functions).
    erewrite IH; [|exact Hfile|reflexivity]. unfold listing. cbn.
    now rewrite <- app_assoc.
Qed.

Lemma assembly_scope host g w functions :
  previous_writer w = None ->
  output_file w = None ->
  scope host (block host (add_all functions)) (g, Assembly w)
  = (Ok tt,
     (set_fs
        (<[output_path w :=
             String.list_byte_of_string (output_header w)
             ++ listing host (assembly_format w) functions]> (fs g)) g,
      Assembly w)).
Proof.
  intros Hprev Hfile.
  set (w1 := set_output_file (Some (mkFile (output_path w)))
               (set_previous_writer (active_writer g) w)).
  set (g1 := mkGlobals (Some (self w))
               (<[output_path w :=
                    String.list_byte_of_string (output_header w)]> (fs g))).
  assert (Henter : enter (g, Assembly w) = (Ok tt, (g1, Assembly w1))).
  { subst g1 w1. destruct w. cbn. unfold set_fs. cbn.
    now rewrite alter_insert_eq. }
  unfold scope, with_statement. rewrite Henter.
  rewrite (assembly_calls host (output_path w) functions g1 w1 _ (fs g)
             eq_refl eq_refl).
  subst w1 g1. destruct w. cbn in *. subst. reflexivity.
Qed.

(** Property X9.  [with AssemblyWriter(path, format, input_path) as writer:]
    followed by any sequence of [add_function] calls returns, restores
    the registry, leaves the writer as it was constructed, and leaves at
    [path] (whatever was there) exactly: the comment line naming PeachPy,
    its version and the input file if one was given, an empty line, and
    then each function formatted in the writer's dialect and followed by
    a line separator, in call order. *)
Theorem assembly_scope_writes_listing
    (host : Host) (g : Globals) (id : ref) (path assembly_format : string)
    (input_path : option string) (w : AssemblyWriter.t)
    (functions : list ABIFunction) :
  __init__ (linesep host) (version host) id path assembly_format input_path
    = Ok w ->
  scope host (block host (add_all functions)) (g, Assembly w)
  = (Ok tt,
     (set_fs
        (<[path :=
             String.list_byte_of_string
               (match input_path with
                | Some input =>
                    comment_prefix w +:+ " Generated by PeachPy "
                      +:+ version host +:+ " from " +:+ input
                | None =>
                    comment_prefix w +:+ " Generated by PeachPy "
                      +:+ version host
                end +:+ linesep host +:+ linesep host)
             ++ listing host assembly_format functions]> (fs g)) g,
      Assembly w)).
Proof.
  unfold __init__.
  destruct (bool_decide _); [discriminate|].
  destruct (comment_prefixes !! assembly_format) as [prefix|]; [|discriminate].
  intros [= <-]. rewrite assembly_scope by reflexivity.
  cbn [AssemblyWriter.output_path AssemblyWriter.output_header
       AssemblyWriter.assembly_format AssemblyWriter.comment_prefix].
  destruct input_path; now rewrite header_join.
Qed.

Lemma assembly_scope_writes_listing_witness :
  exists w,
    AssemblyWriter.__init__ (linesep example_host) (version example_host)
      4%nat "out.s" "gas" None = Ok w /\
    fs (scope example_host (block example_host (add_all [example_f1]))
          (example_globals, Assembly w)).2.1 !! "out.s"
    = Some (String.list_byte_of_string
              ("# Generated by PeachPy 0.2.0" +:+ linesep example_host
                 +:+ linesep example_host +:+ "ret" +:+ linesep example_host)).
Proof.
  exists (AssemblyWriter.mk 4%nat "gas" "out.s"
            (String.concat (linesep example_host)
               ["#" +:+ " Generated by PeachPy " +:+ version example_host;
                ""; ""])
            "#" None None).
  split; [reflexivity|].
  rewrite (assembly_scope_writes_listing example_host example_globals 4%nat
             "out.s" "gas" None _ [example_f1] eq_refl).
  cbn [fst snd fs set_fs]. rewrite lookup_insert_eq. reflexivity.
Defined.

End AssemblyProperties.

(** ** Scopes and the file system *)

Module ScopeFrame.
Import ScopeFacts.

(** Entering touches no file but the writer's own. *)
Lemma enter_fs_frame g w p :
  output_path w <> Some p -> fs (enter (g, w)).2.1 !! p = fs g !! p.
Proof.
  destruct w as [[]|[]|[]|[]|[]]; cbn; intros Hp; try reflexivity.
  - rewrite lookup_alter_ne, lookup_insert_ne by congruence. reflexivity.
  - rewrite lookup_insert_ne by congruence. reflexivity.
  - rewrite lookup_insert_ne by congruence. reflexivity.
  - rewrite lookup_insert_ne by congruence. reflexivity.
Qed.

Lemma add_function_fs_frame host function s p :
  open_on_file s -> output_path s.2 <> Some p ->
  fs (add_function host function s).2.1 !! p = fs s.1 !! p.
Proof.
  destruct s as [g w]. unfold open_on_file, add_function. cbn [fst snd].
  intros Hopen Hp.
  destruct w as [w|w|w|w|w]; unfold as_variant, on_self; cbn [fst snd].
  - destruct (Hopen _ eq_refl) as [Hf _].
    destruct function as [f|n]; [|reflexivity].
    destruct w; cbn in *. subst. cbn.
    rewrite lookup_alter_ne by congruence. reflexivity.
  - now destruct (ELFWriter.add_function function w).
  - now destruct (MachOWriter.add_function function w).
  - now destruct (MSCOFFWriter.add_function function w).
  - reflexivity.
Qed.

Lemma add_function_open_on_file host function s :
  open_on_file s -> open_on_file (add_function host function s).2.
Proof.
  intros H p Hp.
  destruct (add_function_frame host function s) as (_ & _ & H3 & H4 & H5).
  rewrite H3 in Hp. rewrite H4. destruct (H p Hp) as [Hf Hs]. auto.
Qed.

Lemma block_fs_frame host statements p : forall s,
  open_on_file s -> output_path s.2 <> Some p ->
  fs (block host statements s).2.1 !! p = fs s.1 !! p.
Proof.
  induction statements as [|[function|e] rest IH]; intros s Hopen Hp;
    [reflexivity| |reflexivity].
  cbn [block]. unfold bind.
  pose proof (add_function_fs_frame host function s p Hopen Hp) as Hfs.
  pose proof (add_function_open_on_file host function s Hopen) as Hopen1.
  destruct (add_function_frame host function s) as (_ & _ & Hpath & _).
  destruct (add_function host function s) as [[[]|e] s1]; cbn [snd] in *.
  - rewrite IH; [exact Hfs|exact Hopen1|now rewrite Hpath].
  - exact Hfs.
Qed.

(** Leaving touches no file but the writer's own, and leaves the writer
    without a file object. *)
Lemma exit_fs_frame host exc s p :
  open_on_file s -> output_path s.2 <> Some p ->
  fs (exit host exc s).2.1 !! p = fs s.1 !! p.
Proof.
  destruct s as [g w]. unfold open_on_file, exit. cbn [fst snd].
  intros H Hp.
  destruct w as [w|w|w|w|w]; unfold as_variant; cbn [fst];
    try (destruct (H _ eq_refl) as [Hf [c Hc]]; cbn in Hf).
  - destruct w as [? ? path ? ? ? file]; cbn in *. subst file.
    destruct exc as [e|]; [|reflexivity].
    unfold AssemblyWriter.__exit__, bind, on_self, on_globals, gets, modify,
      os_unlink; cbn.
    rewrite Hc. cbn. rewrite lookup_delete_ne by congruence. reflexivity.
  - destruct w as [? path ? ? ? ? ? ? file]; cbn in *. subst file.
    destruct exc as [e|].
    + unfold ELFWriter.__exit__, bind, on_self, on_globals, gets, modify,
        os_unlink; cbn.
      rewrite Hc. cbn. rewrite lookup_delete_ne by congruence. reflexivity.
    + cbn. rewrite lookup_alter_ne by congruence. reflexivity.
  - destruct w as [? path ? ? ? file]; cbn in *. subst file.
    destruct exc as [e|].
    + unfold MachOWriter.__exit__, bind, on_self, on_globals, gets, modify,
        os_unlink; cbn.
      rewrite Hc. cbn. rewrite lookup_delete_ne by congruence. reflexivity.
    + cbn. rewrite lookup_alter_ne by congruence. reflexivity.
  - destruct w as [? path ? ? ? ? file]; cbn in *. subst file.
    destruct exc as [e|].
    + unfold MSCOFFWriter.__exit__, bind, on_self, on_globals, gets, modify,
        os_unlink; cbn.
      rewrite Hc. cbn. rewrite lookup_delete_ne by congruence. reflexivity.
    + cbn. rewrite lookup_alter_ne by congruence. reflexivity.
  - destruct w. reflexivity.
Qed.

Lemma exit_clears_file host exc s :
  open_on_file s ->
  output_file (exit host exc s).2.2 = None /\
  output_path (exit host exc s).2.2 = output_path s.2.
Proof.
  destruct s as [g w]. unfold open_on_file, exit. cbn [fst snd].
  intros H.
  destruct w as [w|w|w|w|w]; unfold as_variant; cbn [fst];
    try (destruct (H _ eq_refl) as [Hf [c Hc]]; cbn in Hf).
  - destruct w as [? ? path ? ? ? file]; cbn in *. subst file.
    destruct exc as [e|]; [|split; reflexivity].
    unfold AssemblyWriter.__exit__, bind, on_self, on_globals, gets, modify,
      os_unlink; cbn.
    rewrite Hc. split; reflexivity.
  - destruct w as [? path ? ? ? ? ? ? file]; cbn in *. subst file.
    destruct exc as [e|]; [|split; reflexivity].
    unfold ELFWriter.__exit__, bind, on_self, on_globals, gets, modify,
      os_unlink; cbn.
    rewrite Hc. split; reflexivity.
  - destruct w as [? path ? ? ? file]; cbn in *. subst file.
    destruct exc as [e|]; [|split; reflexivity].
    unfold MachOWriter.__exit__, bind, on_self, on_globals, gets, modify,
      os_unlink; cbn.
    rewrite Hc. split; reflexivity.
  - destruct w as [? path ? ? ? ? file]; cbn in *. subst file.
    destruct exc as [e|]; [|split; reflexivity].
    unfold MSCOFFWriter.__exit__, bind, on_self, on_globals, gets, modify,
      os_unlink; cbn.
    rewrite Hc. split; reflexivity.
  - destruct w. split; reflexivity.
Qed.

(** Leaving a writer that holds no file object fails on the first use
    of the file. *)
Lemma exit_without_file host exc s :
  output_file s.2 = None -> is_Some (output_path s.2) ->
  exists what, (exit host exc s).1 = Raise (AttributeError what).
Proof.
  destruct s as [g w]. unfold exit. cbn [fst snd]. intros Hf Hp.
  destruct w as [w|w|w|w|w]; unfold as_variant; cbn [fst].
  - destruct w; cbn in Hf; subst. destruct exc; cbn; eauto.
  - destruct w; cbn in Hf; subst. destruct exc; cbn; eauto.
  - destruct w; cbn in Hf; subst. destruct exc; cbn; eauto.
  - destruct w; cbn in Hf; subst. destruct exc; cbn; eauto.
  - now destruct Hp.
Qed.

(** What a [with] statement whose [__enter__] returns ends with. *)
Lemma with_statement_exit {S} (enter : M S unit) (exit : option exn -> M S unit)
    (body : M S unit) s s1 :
  enter s = (Ok tt, s1) ->
  exists exc,
    (with_statement enter exit body s).2 = (exit exc (body s1).2).2 /\
    forall e, (exit exc (body s1).2).1 = Raise e ->
              (with_statement enter exit body s).1 = Raise e.
Proof.
  intros He. unfold with_statement. rewrite He.
  destruct (body s1) as [[[]|e] s2]; cbn [snd].
  - exists None. destruct (exit None s2) as [r s3]. split; [reflexivity|].
    now intros e.
  - exists (Some e). destruct (exit (Some e) s2) as [[[]|e'] s3];
      (split; [reflexivity|]); intros e0; cbn; [discriminate|tauto].
Qed.

Lemma scope_leaves_writer_closed host statements s :
  previous_writer (scope host (block host statements) s).2.2 = None /\
  output_path (scope host (block host statements) s).2.2 = output_path s.2 /\
  output_file (scope host (block host statements) s).2.2 = None.
Proof.
  destruct s as [g w].
  destruct (enter_spec g w) as (g1 & w1 & He & _ & _ & Hpath & Hopen).
  destruct (with_statement_exit enter (exit host) (block host statements)
              _ _ He) as (exc & Hs & _).
  unfold scope. rewrite Hs.
  pose proof (block_open_on_file host statements _ Hopen) as Hopen2.
  destruct (block_frame host statements (g1, w1)) as (_ & _ & Hp2 & _).
  destruct (exit_restores host exc (block host statements (g1, w1)).2)
    as [_ Hprev].
  destruct (exit_clears_file host exc _ Hopen2) as [Hfile Hp3].
  rewrite Hprev, Hfile, Hp3, Hp2. cbn in *. now rewrite Hpath.
Qed.

End ScopeFrame.

(** Property X10.  A [with] statement over any writer and any block of
    [add_function] calls and [raise] statements, however it ends,
    leaves every file other than the writer's output path as it was:
    present with the same content, or absent.  (The null writer has no
    output path and touches no file at all.) *)
Theorem scope_touches_only_its_output_path
    (host : Host) (g : Globals) (w : Writer) (statements : list statement)
    (p : string) :
  output_path w <> Some p ->
  fs (scope host (block host statements) (g, w)).2.1 !! p = fs g !! p.
Proof.
  intros Hp.
  destruct (ScopeFacts.enter_spec g w) as (g1 & w1 & He & _ & _ & Hpath & Hopen).
  destruct (ScopeFrame.with_statement_exit enter (exit host)
              (block host statements) _ _ He) as (exc & Hs & _).
  unfold scope. rewrite Hs.
  pose proof (ScopeFacts.block_open_on_file host statements _ Hopen) as Hopen2.
  destruct (ScopeFacts.block_frame host statements (g1, w1)) as (_ & _ & Hp2 & _).
  cbn [fst snd] in Hp2.
  rewrite ScopeFrame.exit_fs_frame by (rewrite ?Hp2, ?Hpath; assumption).
  rewrite ScopeFrame.block_fs_frame by (cbn; rewrite ?Hpath; assumption).
  pose proof (ScopeFrame.enter_fs_frame g w p Hp) as Hfs.
  now rewrite He in Hfs.
Qed.

Lemma scope_touches_only_its_output_path_witness :
  fs (scope example_host
        (block example_host
           [call_add_function (Bound example_f1);
            raise_statement (Exception "stop")])
        (example_globals, MachO (MachOWriter.__init__ 3%nat "out.macho" example_abi))).2.1
    !! "out.o"
  = Some [x00].
Proof.
  rewrite scope_touches_only_its_output_path by discriminate. reflexivity.
Defined.

(** Property X11.  A writer is not re-entrant: when the scope of a writer
    is opened again inside its own scope, the inner [__enter__]
    overwrites what the outer one saved, so that after both scopes the
    registry holds nobody, whoever was registered before; and, for every
    writer that has an output file, the inner [__exit__] drops the file
    object, so that the outer [__exit__] raises [AttributeError]. *)
Theorem writer_is_not_reentrant
    (host : Host) (g : Globals) (w : Writer) (statements : list statement) :
  active_writer
    (scope host (scope host (block host statements)) (g, w)).2.1 = None /\
  previous_writer
    (scope host (scope host (block host statements)) (g, w)).2.2 = None /\
  (is_Some (output_path w) ->
   exists what,
     (scope host (scope host (block host statements)) (g, w)).1
     = Raise (AttributeError what)).
Proof.
  destruct (ScopeFacts.enter_spec g w) as (g1 & w1 & He & _ & _ & Hpath & _).
  destruct (ScopeFrame.with_statement_exit enter (exit host)
              (scope host (block host statements)) _ _ He) as (exc & Hs & Hr).
  fold (scope host (scope host (block host statements))) in Hs, Hr.
  destruct (ScopeFrame.scope_leaves_writer_closed host statements (g1, w1))
    as (Hprev & Hp & Hfile).
  destruct (ScopeFacts.exit_restores host exc
              (scope host (block host statements) (g1, w1)).2) as [Ha Hb].
  rewrite Hs, Ha, Hb, Hprev. repeat split.
  intros Hsome.
  destruct (ScopeFrame.exit_without_file host exc
              (scope host (block host statements) (g1, w1)).2 Hfile)
    as [what Hwhat].
  { rewrite Hp. cbn. now rewrite Hpath. }
  exists what. now apply Hr.
Qed.

Lemma writer_is_not_reentrant_witness :
  active_writer
    (scope example_host
       (scope example_host
          (block example_host [call_add_function (Bound example_f1)]))
       (example_globals, ELF (example_elf example_abi))).2.1 = None /\
  exists what,
    (scope example_host
       (scope example_host
          (block example_host [call_add_function (Bound example_f1)]))
       (example_globals, ELF (example_elf example_abi))).1
    = Raise (AttributeError what).
Proof.
  destruct (writer_is_not_reentrant example_host example_globals
              (ELF (example_elf example_abi))
              [call_add_function (Bound example_f1)]) as (Ha & _ & Hr).
  split; [exact Ha|]. apply Hr. cbn. eauto.
Defined.
